(** * qinn: a LINQ-style [Enumerable] over JavaScript iterables

    A shallow embedding of [src/qinn.ts] and the properties its
    specification states about it.

    Conventions of the embedding.
    - Where numbers are only compared or counted they are integers ([Z]),
      which stand for themselves as long as they are safe integers; the one
      other number the comparison operators treat specially, [NaN], is
      added where keys are compared.  Where the code does arithmetic on its
      input ([range], [sum], [average]) numbers are double-precision
      floats ([JS.float]) with the rounding of IEEE 754.
    - A synchronous, array-backed sequence is the list of elements one full
      traversal yields.  Where a property counts invocations of
      caller-supplied functions, generators are traces of invocations and
      yields, and caches are threaded explicitly.
    - Caller-supplied functions are total and do not throw. *)

From Stdlib Require Import ZArith QArith Qround Qabs Qreduction String List Lia.
From Stdlib Require Import Sorting.Sorted Sorting.Permutation.
From Stdlib Require Import Floats.SpecFloat.
From Stdlib Require Qcanon.
From stdpp Require Import gmap strings list pretty.

Set Warnings "-clear-no-such-hyp,-notation-for-abbreviation".

Local Open Scope string_scope.
Local Open Scope Z_scope.

(** ** JavaScript built-ins the library relies on *)

Module JS.

(** Exceptions: [Error] is thrown by the library itself, [RangeError] by
    the array constructor. *)
Inductive exn : Type :=
| Error (message : string)
| RangeError (message : string).

(** Numbers the code computes with: double-precision floats.  A finite
    double is the rational it denotes; the two zeros, which no operator of
    the library tells apart, are one value. *)
Inductive float : Type :=
| Finite (q : Q)
| NotANumber
| Infinite (negative : bool).

(** An integer literal or loop counter as a number. *)
Definition of_Z (z : Z) : float := Finite (inject_Z z).

Definition pow2 (k : Z) : Q :=
  if 0 <=? k then inject_Z (2 ^ k) else Qmake 1 (Z.to_pos (2 ^ (- k))).

(** The exponent [e] with [2^e <= a < 2^(e+1)], for [a > 0]. *)
Definition floor_log2 (a : Q) : Z :=
  let e0 := Z.log2 (Qnum a) - Z.log2 (Zpos (Qden a)) in
  if Qle_bool (pow2 e0) a then e0 else e0 - 1.

Definition round_half_even (x : Q) : Z :=
  let f := Qfloor x in
  match Qcompare (x - inject_Z f) (1 # 2) with
  | Lt => f
  | Gt => f + 1
  | Eq => if Z.even f then f else f + 1
  end.

(** The double nearest to a rational (ties to even): 53 significant bits,
    least exponent [-1074], overflow to an infinity from [2^1024] on. *)
Definition round (x : Q) : float :=
  let q := Qred x in
  if Qeq_bool q 0 then Finite 0
  else
    let a := Qabs q in
    let k := Z.max (floor_log2 a - 52) (-1074) in
    let m := round_half_even (a / pow2 k) in
    let r := (inject_Z m * pow2 k)%Q in
    if Qle_bool (pow2 1024) r then Infinite (Qnum q <? 0)
    else Finite (Qred (if Qnum q <? 0 then - r else r)).

(** [x + y] on numbers. *)
Definition float_add (x y : float) : float :=
  match x, y with
  | NotANumber, _ | _, NotANumber => NotANumber
  | Infinite a, Infinite b => if Bool.eqb a b then Infinite a else NotANumber
  | Infinite a, Finite _ | Finite _, Infinite a => Infinite a
  | Finite a, Finite b => round (a + b)
  end.

(** [x / y] on numbers; a zero divisor is read as [+0]. *)
Definition float_div (x y : float) : float :=
  match x, y with
  | NotANumber, _ | _, NotANumber => NotANumber
  | Infinite _, Infinite _ => NotANumber
  | Infinite a, Finite d => Infinite (xorb a (Qnum d <? 0))
  | Finite _, Infinite _ => Finite 0
  | Finite n, Finite d =>
      if Qeq_bool d 0
      then if Qeq_bool n 0 then NotANumber else Infinite (Qnum n <? 0)
      else round (n / d)
  end.

(** A value of the Standard Library's specification of IEEE 754 floats as
    a number, to compare [float_add] and [float_div] with [SFadd] and
    [SFdiv] at precision 53 and maximal exponent 1024. *)
Definition of_spec_float (x : spec_float) : float :=
  match x with
  | S754_zero _ => of_Z 0
  | S754_infinity s => Infinite s
  | S754_nan => NotANumber
  | S754_finite s m e =>
      Finite (Qred (inject_Z (if s then Z.neg m else Z.pos m) * pow2 e))
  end.

(** Sample doubles, each with both signs: one, its successor, one tenth,
    one fifth, three, [2^53], [2^53 - 1], the largest double, the least
    and the largest subnormal, the least normal double; the infinities and
    [NaN]. *)
Definition binary64_samples : list spec_float :=
  [S754_infinity false; S754_infinity true; S754_nan]
  ++ flat_map (fun '(m, e) => [S754_finite false m e; S754_finite true m e])
       [(4503599627370496%positive, -52); (4503599627370497%positive, -52);
        (3602879701896397%positive, -55); (3602879701896397%positive, -54);
        (6755399441055744%positive, -51); (4503599627370496%positive, 1);
        (9007199254740991%positive, 0); (9007199254740991%positive, 971);
        (1%positive, -1074); (4503599627370495%positive, -1074);
        (4503599627370496%positive, -1074)].

(** The length [new Array(len)] accepts: [len] when it is an unsigned
    32-bit integer, nothing for a negative, fractional, too large,
    infinite or [NaN] [len]. *)
Definition array_length (len : float) : option nat :=
  match len with
  | Finite q =>
      let r := Qred q in
      if (Zpos (Qden r) =? 1) && (0 <=? Qnum r) && (Qnum r <? 2 ^ 32)
      then Some (Z.to_nat (Qnum r))
      else None
  | _ => None
  end.

(** [new Array(len)] for a number [len]: an array of [len] holes, or a
    [RangeError] when [len] is not an array length. *)
Definition new_Array {T : Type} (len : float) : exn + list (option T) :=
  match array_length len with
  | Some n => inr (replicate n None)
  | None => inl (RangeError "Invalid array length")
  end.

(** [arr[i] = v]: a write in range replaces the slot, a write past the end
    extends the array with holes. *)
Definition array_set {T : Type} (i : nat) (v : T) (arr : list (option T))
  : list (option T) :=
  if (i <? length arr)%nat then <[i := Some v]> arr
  else arr ++ replicate (i - length arr) None ++ [Some v].

(** The relational operators [<], [>] and the strict equality [===] on a
    type of keys.  On primitives no value is below or above itself. *)
Class Compare (K : Type) : Type := {
  lt : K -> K -> bool;
  gt : K -> K -> bool;
  seq : K -> K -> bool;
  lt_irrefl : forall k, lt k k = false;
  gt_irrefl : forall k, gt k k = false
}.

(** Numbers as the comparison operators see them: every comparison with
    [NaN] is false, [NaN === NaN] included. *)
Inductive number : Type :=
| Num (z : Z)
| NaN.

Definition number_lt (a b : number) : bool :=
  match a, b with
  | Num x, Num y => x <? y
  | _, _ => false
  end.

Definition number_gt (a b : number) : bool :=
  match a, b with
  | Num x, Num y => x >? y
  | _, _ => false
  end.

Definition number_seq (a b : number) : bool :=
  match a, b with
  | Num x, Num y => x =? y
  | _, _ => false
  end.

#[export, refine] Instance number_Compare : Compare number :=
  {| lt := number_lt; gt := number_gt; seq := number_seq |}.
Proof.
  - intros [z|]; simpl; [apply Z.ltb_irrefl | reflexivity].
  - intros [z|]; simpl; [| reflexivity].
    rewrite Z.gtb_ltb. apply Z.ltb_irrefl.
Defined.

#[export, refine] Instance Z_Compare : Compare Z :=
  {| lt := Z.ltb; gt := Z.gtb; seq := Z.eqb |}.
Proof.
  - apply Z.ltb_irrefl.
  - intros k. rewrite Z.gtb_ltb. apply Z.ltb_irrefl.
Defined.

(** Values: primitives (the numbers among them safe integers), and
    objects that carry the reference they are stored at next to their own
    enumerable properties (in insertion order). *)
#[warnings="-register-all"]
Inductive value : Type :=
| VUndefined
| VNum (n : Z)
| VStr (s : string)
| VObj (ref : nat) (props : list (string * value)).

(** What [Set] and [Map] compare (SameValueZero): primitives by value,
    objects by reference. *)
Inductive identity : Type :=
| IUndefined
| INum (n : Z)
| IStr (s : string)
| IRef (ref : nat).

Definition identity_of (v : value) : identity :=
  match v with
  | VUndefined => IUndefined
  | VNum n => INum n
  | VStr s => IStr s
  | VObj ref _ => IRef ref
  end.

#[export] Instance identity_eq_dec : EqDecision identity.
Proof. solve_decision. Defined.

Definition identity_encode (i : identity) : unit + Z + string + nat :=
  match i with
  | IUndefined => inl (inl (inl tt))
  | INum n => inl (inl (inr n))
  | IStr s => inl (inr s)
  | IRef r => inr r
  end.

Definition identity_decode (x : unit + Z + string + nat) : identity :=
  match x with
  | inl (inl (inl _)) => IUndefined
  | inl (inl (inr n)) => INum n
  | inl (inr s) => IStr s
  | inr r => IRef r
  end.

#[export] Instance identity_countable : Countable identity.
Proof.
  apply (inj_countable' identity_encode identity_decode).
  intros []; reflexivity.
Defined.

Definition dquote : string := String (Ascii.ascii_of_nat 34) EmptyString.
Definition backslash : string := String (Ascii.ascii_of_nat 92) EmptyString.

Definition hex_digit (n : nat) : string :=
  String.substring n 1 "0123456789abcdef".

(** The escape [JSON.stringify] applies to one character of a string: a
    quotation mark and a backslash get a backslash in front, the control
    characters (code points below 32) their short escape where there is one
    and the four-digit [u] escape otherwise. *)
Definition escape_char (c : Ascii.ascii) : string :=
  let n := Ascii.nat_of_ascii c in
  if (n =? 34)%nat then backslash ++ dquote
  else if (n =? 92)%nat then backslash ++ backslash
  else if (n =? 8)%nat then backslash ++ "b"
  else if (n =? 9)%nat then backslash ++ "t"
  else if (n =? 10)%nat then backslash ++ "n"
  else if (n =? 12)%nat then backslash ++ "f"
  else if (n =? 13)%nat then backslash ++ "r"
  else if (n <? 32)%nat
       then backslash ++ "u00" ++ hex_digit (n / 16) ++ hex_digit (n mod 16)
  else String c EmptyString.

Fixpoint escape (s : string) : string :=
  match s with
  | EmptyString => EmptyString
  | String c rest => escape_char c ++ escape rest
  end.

Definition quote (s : string) : string := dquote ++ escape s ++ dquote.

(** [JSON.stringify(v)]: [None] is the result [undefined].  Properties are
    written in their own order, a property whose value is [undefined] is
    left out, and the reference of an object is not part of the text. *)
Fixpoint JSON_stringify (v : value) : option string :=
  match v with
  | VUndefined => None
  | VNum n => Some (pretty n)
  | VStr s => Some (quote s)
  | VObj _ props =>
      let fix members (ps : list (string * value)) : list string :=
        match ps with
        | [] => []
        | (k, x) :: ps' =>
            match JSON_stringify x with
            | Some s => (quote k ++ ":" ++ s) :: members ps'
            | None => members ps'
            end
        end in
      Some ("{" ++ String.concat "," (members props) ++ "}")
  end.

(** The value a [Map] sees when the key is [JSON.stringify(v)]. *)
Definition JSON_key (v : value) : identity :=
  match JSON_stringify v with
  | Some s => IStr s
  | None => IUndefined
  end.

(** Structure of a value: the value with every reference forgotten. *)
Fixpoint structure (v : value) : value :=
  match v with
  | VObj _ props =>
      let fix go (ps : list (string * value)) : list (string * value) :=
        match ps with
        | [] => []
        | (k, x) :: ps' => (k, structure x) :: go ps'
        end in
      VObj 0 (go props)
  | _ => v
  end.

(** Two values have the same layout when they differ in references only:
    the same properties with the same values, in the same order. *)
Definition same_layout (a b : value) : Prop :=
  structure a = structure b.

(** Two values are structurally equal when they are the same primitive, or
    objects with the same properties, in any order, holding structurally
    equal values. *)
#[warnings="-register-all"]
Inductive structurally_equal : value -> value -> Prop :=
| equal_undefined : structurally_equal VUndefined VUndefined
| equal_num (n : Z) : structurally_equal (VNum n) (VNum n)
| equal_str (s : string) : structurally_equal (VStr s) (VStr s)
| equal_obj (ref1 ref2 : nat) (props1 props2 reordered : list (string * value)) :
    props2 ≡ₚ reordered ->
    Forall2 (fun p q => fst p = fst q /\ structurally_equal (snd p) (snd q))
            props1 reordered ->
    structurally_equal (VObj ref1 props1) (VObj ref2 props2).

End JS.

Local Close Scope string_scope.

(** ** The [Enumerable] class *)

Module Enumerable.
Import JS.

(** *** Sequence core *)

(** The object an [Enumerable] wraps.  The class probes it for the two
    iteration methods at pull time; a method that is present is
    represented by the elements it produces. *)
Record Iterable (T : Type) : Type := mkIterable {
  sym_iterator : option (list T);
  sym_asyncIterator : option (list T)
}.
Arguments mkIterable {T} _ _.
Arguments sym_iterator {T} _.
Arguments sym_asyncIterator {T} _.

Record Enumerable (T : Type) : Type := new_Enumerable {
  iterable : Iterable T
}.
Arguments new_Enumerable {T} _.
Arguments iterable {T} _.

Definition async_message : string :=
  "This enumerable is async — use for await or toArrayAsync()"%string.

(** [[Symbol.iterator]()] *)
Definition iterator {T : Type} (e : Enumerable T) : exn + list T :=
  match sym_iterator (iterable e) with
  | Some it => inr it
  | None => inl (Error async_message)
  end.

(** An array, a [Set] or a generator object: synchronous pull only. *)
Definition sync_source {T : Type} (items : list T) : Iterable T :=
  mkIterable (Some items) None.

(** An async generator object: asynchronous pull only. *)
Definition async_source {T : Type} (items : list T) : Iterable T :=
  mkIterable None (Some items).

(** [Enumerable.from(iterable)] *)
Definition from {T : Type} (items : list T) : Enumerable T :=
  new_Enumerable (sync_source items).

(** [Enumerable.empty()]: a generator with an empty body. *)
Definition empty {T : Type} : Enumerable T :=
  new_Enumerable (sync_source []).

(** The values [i] takes in [for (let i = 0; i < count; i++)]: the
    integers from [0] below [count], none when [count] is [NaN].  The loop
    is reached only after [new Array(count)] has returned, so [count] is
    finite here. *)
Definition iterations (count : float) : list nat :=
  match count with
  | Finite q => List.seq 0 (Z.to_nat (Qceiling q))
  | _ => []
  end.

(** The loop [for (let i = 0; i < count; i++) arr[i] = start + i]. *)
Definition range_fill (start count : float) (arr : list (option float))
  : list (option float) :=
  fold_left (fun a i => array_set i (float_add start (of_Z (Z.of_nat i))) a)
            (iterations count) arr.

(** [Enumerable.range(start, count)]: the array is allocated and filled at
    call time, before any pull. *)
Definition range (start count : float) : exn + list (option float) :=
  match new_Array count with
  | inl e => inl e
  | inr arr => inr (range_fill start count arr)
  end.

(** [for (const item of this) ...] run to its end by [body]. *)
Definition for_of {T R : Type} (e : Enumerable T) (body : list T -> R)
  : exn + R :=
  match iterator e with
  | inl err => inl err
  | inr items => inr (body items)
  end.

(** *** Aggregation terminals *)

Section Terminals.
Context {T : Type} `{Compare T}.
(** [Number(item)], for sequences of numeric elements. *)
Variable Number : T -> float.

Fixpoint first_loop (predicate : option (T -> bool)) (items : list T)
  : option T :=
  match items with
  | [] => None
  | item :: rest =>
      match predicate with
      | Some p => if p item then Some item else first_loop predicate rest
      | None => Some item
      end
  end.

Definition first (predicate : option (T -> bool)) (e : Enumerable T)
  : exn + option T :=
  for_of e (first_loop predicate).

Definition count_loop (predicate : option (T -> bool)) (items : list T) : Z :=
  fold_left (fun i item =>
               match predicate with
               | Some p => if negb (p item) then i else i + 1
               | None => i + 1
               end) items 0.

Definition count (predicate : option (T -> bool)) (e : Enumerable T)
  : exn + Z :=
  for_of e (count_loop predicate).

Definition sum_loop (selector : option (T -> float)) (items : list T)
  : float :=
  fold_left (fun i item =>
               match selector with
               | Some sel => float_add i (sel item)
               | None => float_add i (Number item)
               end) items (of_Z 0).

Definition sum (selector : option (T -> float)) (e : Enumerable T)
  : exn + float :=
  for_of e (sum_loop selector).

(** [average] keeps [sum] and [count]; [count] counts elements, so it
    stays a safe integer and [count++] is exact. *)
Definition average_loop (selector : option (T -> float)) (items : list T)
  : float :=
  let '(sum, count) :=
    fold_left (fun '(sum, count) item =>
                 match selector with
                 | Some sel => (float_add sum (sel item), count + 1)
                 | None => (float_add sum (Number item), count + 1)
                 end) items (of_Z 0, 0) in
  if count =? 0 then of_Z 0 else float_div sum (of_Z count).

Definition average (selector : option (T -> float)) (e : Enumerable T)
  : exn + float :=
  for_of e (average_loop selector).

(** [max] and [min] share their shape: the variable [max] starts
    unassigned ([None], the value [undefined]). *)
Definition max_loop (items : list T) : option T :=
  snd (fold_left (fun '(hasValue, max) item =>
                    if negb hasValue then (true, Some item)
                    else match max with
                         | Some m => if gt item m then (hasValue, Some item)
                                     else (hasValue, max)
                         | None => (hasValue, max)
                         end) items (false, None)).

Definition max (e : Enumerable T) : exn + option T := for_of e max_loop.

Definition min_loop (items : list T) : option T :=
  snd (fold_left (fun '(hasValue, max) item =>
                    if negb hasValue then (true, Some item)
                    else match max with
                         | Some m => if lt item m then (hasValue, Some item)
                                     else (hasValue, max)
                         | None => (hasValue, max)
                         end) items (false, None)).

Definition min (e : Enumerable T) : exn + option T := for_of e min_loop.

Fixpoint all_loop (predicate : T -> bool) (items : list T) : bool :=
  match items with
  | [] => true
  | item :: rest => if negb (predicate item) then false
                    else all_loop predicate rest
  end.

Definition all (predicate : T -> bool) (e : Enumerable T) : exn + bool :=
  for_of e (all_loop predicate).

Fixpoint any_loop (predicate : option (T -> bool)) (items : list T) : bool :=
  match items with
  | [] => false
  | item :: rest =>
      let isMatch :=
        match predicate with
        | None => true
        | Some p => p item
        end in
      if isMatch then isMatch else any_loop predicate rest
  end.

Definition any (predicate : option (T -> bool)) (e : Enumerable T)
  : exn + bool :=
  for_of e (any_loop predicate).

Fixpoint contains_loop (value : T) (items : list T) : bool :=
  match items with
  | [] => false
  | item :: rest => if seq item value then true else contains_loop value rest
  end.

Definition contains (value : T) (e : Enumerable T) : exn + bool :=
  for_of e (contains_loop value).

End Terminals.

(** *** Deferred stages and caller-supplied functions

    A generator is represented by what a consumer can observe while
    driving it: the elements it yields and, between them, the invocations
    of caller-supplied functions it performs.  A consumer that stops
    pulling observes a prefix. *)

Inductive Gen (E T : Type) : Type :=
| Done
| Yield (item : T) (rest : Gen E T)
| Invoke (call : E) (rest : Gen E T).
Arguments Done {E T}.
Arguments Yield {E T} _ _.
Arguments Invoke {E T} _ _.

(** A generator over an array: no caller-supplied function is involved. *)
Fixpoint of_array {E T : Type} (items : list T) : Gen E T :=
  match items with
  | [] => Done
  | item :: rest => Yield item (of_array rest)
  end.

(** [toArray()]: drives the generator to its end. *)
Fixpoint toArray {E T : Type} (g : Gen E T) : list T :=
  match g with
  | Done => []
  | Yield item rest => item :: toArray rest
  | Invoke _ rest => toArray rest
  end.

(** The invocations performed while the generator is driven to its end. *)
Fixpoint invocations {E T : Type} (g : Gen E T) : list E :=
  match g with
  | Done => []
  | Yield _ rest => invocations rest
  | Invoke call rest => call :: invocations rest
  end.

(** [select(mapper)]: an invocation of [mapper] on [item] is the call
    [inr item]; calls of upstream stages are kept as [inl]. *)
Fixpoint select {E T S : Type} (mapper : T -> S) (self : Gen E T)
  : Gen (E + T) S :=
  match self with
  | Done => Done
  | Yield item rest => Invoke (inr item) (Yield (mapper item) (select mapper rest))
  | Invoke call rest => Invoke (inl call) (select mapper rest)
  end.

(** [where(predicate)] *)
Fixpoint where_ {E T : Type} (predicate : T -> bool) (self : Gen E T)
  : Gen (E + T) T :=
  match self with
  | Done => Done
  | Yield item rest =>
      Invoke (inr item)
             (if predicate item then Yield item (where_ predicate rest)
              else where_ predicate rest)
  | Invoke call rest => Invoke (inl call) (where_ predicate rest)
  end.

(** The loop of [take(n)] with its counter [i]: an element past the
    first [n] is pulled and not yielded, and the loop goes on. *)
Fixpoint take_loop {E T : Type} (n i : Z) (self : Gen E T) : Gen E T :=
  match self with
  | Done => Done
  | Yield item rest =>
      if i <=? n then Yield item (take_loop n (i + 1) rest)
      else take_loop n i rest
  | Invoke call rest => Invoke call (take_loop n i rest)
  end.

(** [take(n)] *)
Definition take {E T : Type} (n : Z) (self : Gen E T) : Gen E T :=
  take_loop n 1 self.

(** *** Memoization *)

Section Memoize.
Context {T S K : Type} `{Countable K}.
(** [JSON.stringify] on the elements, as a [Map] key. *)
Variable stringify : T -> K.
Variable fn : T -> S.
Variable keySelector : option (T -> K).

Definition memo_key (item : T) : K :=
  match keySelector with
  | Some ks => ks item
  | None => stringify item
  end.

(** The state a memoized sequence owns: its [cache], and the arguments
    [fn] has been invoked with so far. *)
Record memo : Type := mkMemo {
  cache : gmap K S;
  invoked : list T
}.

Definition memo_init : memo := mkMemo ∅ [].

(** One round of the loop of [memoize]: the element yielded and the state
    after it. *)
Definition memoize_item (m : memo) (item : T) : S * memo :=
  let key := memo_key item in
  match cache m !! key with
  | Some cached => (cached, m)
  | None =>
      let result := fn item in
      (result, mkMemo (<[key := result]> (cache m)) (invoked m ++ [item]))
  end.

(** One full traversal of the memoized sequence over the elements its
    upstream yields. *)
Fixpoint memoize (m : memo) (items : list T) : list S * memo :=
  match items with
  | [] => ([], m)
  | item :: rest =>
      let '(y, m1) := memoize_item m item in
      let '(ys, m2) := memoize m1 rest in
      (y :: ys, m2)
  end.

(** Successive full traversals of one memoized sequence; [inputs] lists
    what the upstream yields in each of them. *)
Fixpoint memoize_traversals (m : memo) (inputs : list (list T))
  : list (list S) * memo :=
  match inputs with
  | [] => ([], m)
  | items :: later =>
      let '(out, m1) := memoize m items in
      let '(outs, m2) := memoize_traversals m1 later in
      (out :: outs, m2)
  end.

(** *** Asynchronous memoization

    A Promise is identified by the invocation of [fn] that created it: the
    Promise [p] is the one returned by the [p]-th invocation.  Several
    traversals of one memoized sequence run interleaved; control changes
    hands only where a traversal awaits. *)

Record traversal : Type := mkTraversal {
  upstream : list T;            (* elements not pulled yet *)
  awaiting : option nat;        (* the Promise the [yield] is suspended on *)
  received : list (K * nat);    (* per round: the key and the Promise yielded *)
  delivered : list S            (* values handed to the consumer *)
}.

Record async_memo : Type := mkAsync {
  async_cache : gmap K nat;
  async_invoked : list T;
  settled : gset nat;
  traversals : list traversal
}.

Definition async_init (inputs : list (list T)) : async_memo :=
  mkAsync ∅ [] ∅ ((fun items => mkTraversal items None [] []) <$> inputs).

(** What the scheduler can do next. *)
Inductive event : Type :=
| Pull (t : nat)      (* traversal [t] runs one round of its loop up to the [yield] *)
| Settle (p : nat)    (* the Promise [p] resolves *)
| Resume (t : nat).   (* traversal [t] wakes up with the value of its Promise *)

(** The body of the loop of [memoizeAsync], from the element to the
    [yield]: it runs without interruption. *)
Definition memoizeAsync_item (st : async_memo) (item : T)
  : nat * async_memo :=
  let key := memo_key item in
  match async_cache st !! key with
  | Some promise => (promise, st)
  | None =>
      let promise := length (async_invoked st) in
      (promise,
       mkAsync (<[key := promise]> (async_cache st))
               (async_invoked st ++ [item])
               (settled st) (traversals st))
  end.

Definition step (ev : event) (st : async_memo) : option async_memo :=
  match ev with
  | Pull t =>
      match traversals st !! t with
      | Some (mkTraversal (item :: rest) None rcv out) =>
          let '(promise, st1) := memoizeAsync_item st item in
          let tr := mkTraversal rest (Some promise)
                                (rcv ++ [(memo_key item, promise)]) out in
          Some (mkAsync (async_cache st1) (async_invoked st1) (settled st1)
                        (<[t := tr]> (traversals st1)))
      | _ => None
      end
  | Settle p =>
      if bool_decide (p < length (async_invoked st))%nat
      then Some (mkAsync (async_cache st) (async_invoked st)
                         ({[p]} ∪ settled st) (traversals st))
      else None
  | Resume t =>
      match traversals st !! t with
      | Some (mkTraversal ups (Some p) rcv out) =>
          match async_invoked st !! p with
          | Some arg =>
              if bool_decide (p ∈ settled st)
              then Some (mkAsync (async_cache st) (async_invoked st) (settled st)
                                 (<[t := mkTraversal ups None rcv (out ++ [fn arg])]>
                                    (traversals st)))
              else None
          | None => None
          end
      | _ => None
      end
  end.

(** A schedule is a sequence of events, each enabled when its turn
    comes. *)
Fixpoint run (schedule : list event) (st : async_memo) : option async_memo :=
  match schedule with
  | [] => Some st
  | ev :: later =>
      match step ev st with
      | Some st1 => run later st1
      | None => None
      end
  end.

End Memoize.

(** *** Set-like operators

    Elements and keys live in one universe of values; [K] is that
    universe as a [Set] sees it, and [same] sends an element to itself
    there. *)

Section SetLike.
Context {T K : Type} `{Countable K}.
Variable same : T -> K.

(** [keySelector ? keySelector(item) : item] *)
Definition set_key (keySelector : option (T -> K)) (item : T) : K :=
  match keySelector with
  | Some ks => ks item
  | None => same item
  end.

(** The loop shared by [distinct], [distinctBy] and both halves of
    [union]: yields the elements whose key is new to [seen]; returns the
    set as the loop leaves it. *)
Fixpoint seen_loop (key : T -> K) (seen : gset K) (items : list T)
  : list T * gset K :=
  match items with
  | [] => ([], seen)
  | item :: rest =>
      if bool_decide (key item ∈ seen) then seen_loop key seen rest
      else
        let '(out, seen') := seen_loop key ({[key item]} ∪ seen) rest in
        (item :: out, seen')
  end.

(** [distinct()] *)
Definition distinct (self : list T) : list T :=
  fst (seen_loop same ∅ self).

(** [distinctBy(keySelector)] *)
Definition distinctBy (keySelector : T -> K) (self : list T) : list T :=
  fst (seen_loop keySelector ∅ self).

(** [union(enumerable, keySelector?)] *)
Definition union (self enumerable : list T) (keySelector : option (T -> K))
  : list T :=
  let '(out1, seen) := seen_loop (set_key keySelector) ∅ self in
  let '(out2, _) := seen_loop (set_key keySelector) seen enumerable in
  out1 ++ out2.

(** [toSet()] *)
Definition toSet (self : list T) : gset K :=
  list_to_set (same <$> self).

(** [intersect(enumerable, keySelector?)] *)
Definition intersect (self enumerable : list T)
  (keySelector : option (T -> K)) : list T :=
  let set := toSet enumerable in
  List.filter (fun item => bool_decide (set_key keySelector item ∈ set)) self.

End SetLike.

(** *** Ordering *)

Section Ordering.
Context {T K : Type} `{Compare K}.
Variable selector : T -> K.

(** The generator of [orderBy] calls itself on the two outer buckets;
    [fuel] bounds the depth of the calls. *)
Fixpoint orderBy_rec (fuel : nat) (arr : list T) : option (list T) :=
  match fuel with
  | O => None
  | Datatypes.S fuel' =>
      if (length arr <=? 1)%nat then Some arr
      else
        match last arr with
        | None => Some arr
        | Some final =>
            let pivot := selector final in
            let left := List.filter (fun x => lt (selector x) pivot) arr in
            let equal := List.filter (fun x => seq (selector x) pivot) arr in
            let right := List.filter (fun x => gt (selector x) pivot) arr in
            match orderBy_rec fuel' left, orderBy_rec fuel' right with
            | Some before, Some after => Some (before ++ equal ++ after)
            | _, _ => None
            end
        end
  end.

(** [orderBy(selector)] *)
Definition orderBy (self : list T) : option (list T) :=
  orderBy_rec (Datatypes.S (length self)) self.

Fixpoint orderByDescending_rec (fuel : nat) (arr : list T)
  : option (list T) :=
  match fuel with
  | O => None
  | Datatypes.S fuel' =>
      if (length arr <=? 1)%nat then Some arr
      else
        match last arr with
        | None => Some arr
        | Some final =>
            let pivot := selector final in
            let left := List.filter (fun x => gt (selector x) pivot) arr in
            let equal := List.filter (fun x => seq (selector x) pivot) arr in
            let right := List.filter (fun x => lt (selector x) pivot) arr in
            match orderByDescending_rec fuel' left,
                  orderByDescending_rec fuel' right with
            | Some before, Some after => Some (before ++ equal ++ after)
            | _, _ => None
            end
        end
  end.

(** [orderByDescending(selector)] *)
Definition orderByDescending (self : list T) : option (list T) :=
  orderByDescending_rec (Datatypes.S (length self)) self.

End Ordering.

End Enumerable.

(** ** What the specification says, in its own words *)

Module Spec.

Section Words.
Context {T K : Type} `{Countable K}.
Variable key : T -> K.

(** First-seen-order deduplication: an element is kept when no earlier
    element has its key. *)
Fixpoint first_seen (items : list T) : list T :=
  match items with
  | [] => []
  | item :: rest =>
      item :: List.filter (fun y => negb (bool_decide (key y = key item)))
                          (first_seen rest)
  end.

(** The number of distinct keys of a sequence. *)
Definition distinct_keys (items : list T) : nat :=
  size (list_to_set (key <$> items) : gset K).

(** The first element of a sequence with a given key. *)
Definition first_with (k : K) (items : list T) : option T :=
  List.find (fun y => bool_decide (key y = k)) items.

(** [intersect] as worded: the other sequence becomes a set of keys, and
    an element of self is kept when its key is in that set. *)
Definition intersect_by_key (self other : list T) : list T :=
  List.filter
    (fun item => bool_decide (key item ∈ (list_to_set (key <$> other) : gset K)))
    self.

End Words.

Section Orders.
Context {K : Type} `{JS.Compare K}.

(** The keys satisfying [ok] are totally ordered by the comparison
    operators: [===] is equality, [>] is [<] read from the right, and [<]
    is transitive and relates any two different keys. *)
Record totally_ordered (ok : K -> Prop) : Prop := {
  seq_eq : forall a b, ok a -> ok b -> (JS.seq a b = true <-> a = b);
  gt_lt : forall a b, ok a -> ok b -> JS.gt a b = JS.lt b a;
  lt_trans : forall a b c, ok a -> ok b -> ok c ->
             JS.lt a b = true -> JS.lt b c = true -> JS.lt a c = true;
  lt_total : forall a b, ok a -> ok b -> a <> b ->
             JS.lt a b = true \/ JS.lt b a = true
}.

(** Non-decreasing and non-increasing pairs of keys. *)
Definition non_decreasing (a b : K) : Prop := JS.lt a b || JS.seq a b = true.
Definition non_increasing (a b : K) : Prop := JS.gt a b || JS.seq a b = true.

(** The comparison operators with [<] and [>] exchanged. *)
Definition flipped : JS.Compare K :=
  {| JS.lt := JS.gt; JS.gt := JS.lt; JS.seq := JS.seq;
     JS.lt_irrefl := JS.gt_irrefl; JS.gt_irrefl := JS.lt_irrefl |}.

End Orders.

(** The sum of integers as mathematics has it, and the sequences of
    integers every running total of which is a double. *)
Definition total (zs : list Z) : Z := foldr Z.add 0 zs.

Definition running_totals_exact (zs : list Z) : Prop :=
  forall k, Z.abs (total (take k zs)) <= 2 ^ 53.

End Spec.

(** ** Invariants of the caches *)

Module Invariant.
Import Enumerable.

Section Caches.
Context {T S K : Type} `{Countable K}.
Variable key : T -> K.
Variable fn : T -> S.

(** The state of a memoized sequence after the elements [history] have
    been pulled through it, over all traversals so far: the cache holds,
    for each key met, the result for the first element with that key, and
    [fn] was invoked on exactly those first elements, in order. *)
Definition memo_inv (history : list T) (m : memo (T := T) (S := S) (K := K))
  : Prop :=
  (forall k, cache m !! k = fn <$> Spec.first_with key k history) /\
  invoked m = Spec.first_seen key history.

(** The state of an asynchronously memoized sequence under any
    interleaving: the cache and the invocations of [fn] determine each
    other, and every traversal only ever yielded Promises of the cache. *)
Definition async_inv (st : async_memo (T := T) (S := S) (K := K)) : Prop :=
  (forall k p, async_cache st !! k = Some p ->
     exists item, async_invoked st !! p = Some item /\ key item = k) /\
  (forall p item, async_invoked st !! p = Some item ->
     async_cache st !! key item = Some p) /\
  (forall t k p, t ∈ traversals st -> (k, p) ∈ received t ->
     async_cache st !! k = Some p) /\
  (forall t p, t ∈ traversals st -> awaiting t = Some p ->
     exists k, async_cache st !! k = Some p).

End Caches.

End Invariant.

(** ** Further operators of the class *)

Module Stages.
Import JS Enumerable.

(** *** Combining stages *)

Section Combine.
Context {E T : Type}.

(** [concat(iterable)]: all of self, then all of the other iterable. *)
Fixpoint concat (self iterable : Gen E T) : Gen E T :=
  match self with
  | Done => iterable
  | Yield item rest => Yield item (concat rest iterable)
  | Invoke call rest => Invoke call (concat rest iterable)
  end.

(** [append(value)] *)
Fixpoint append (value : T) (self : Gen E T) : Gen E T :=
  match self with
  | Done => Yield value Done
  | Yield item rest => Yield item (append value rest)
  | Invoke call rest => Invoke call (append value rest)
  end.

(** [prepend(value)]: the value is yielded before self is pulled. *)
Definition prepend (value : T) (self : Gen E T) : Gen E T :=
  Yield value self.

(** The invocations [calls], in order, then the generator [next]. *)
Fixpoint performing (calls : list E) (next : Gen E T) : Gen E T :=
  match calls with
  | [] => next
  | call :: later => Invoke call (performing later next)
  end.

(** [reverse()]: [self.toArray()] drives self to its end, then the
    reversed array is yielded. *)
Definition reverse (self : Gen E T) : Gen E T :=
  performing (invocations self) (of_array (rev (toArray self))).

(** [first(predicate?)] driving a generator: the result, and the
    invocations upstream stages performed before the loop returned. *)
Fixpoint first (predicate : option (T -> bool)) (self : Gen E T)
  : option T * list E :=
  match self with
  | Done => (None, [])
  | Invoke call rest =>
      let '(found, calls) := first predicate rest in (found, call :: calls)
  | Yield item rest =>
      match predicate with
      | Some p => if p item then (Some item, []) else first predicate rest
      | None => (Some item, [])
      end
  end.

End Combine.

(** *** Conversion to a [Map] *)

Section ToMap.
Context {T K V : Type} `{Countable K}.
Variable keySelector : T -> K.
Variable valueSelector : T -> V.
(** The text of a key inside a template literal. *)
Variable show : K -> string.

Definition duplicate_warning (key : K) : string :=
  ("Duplicate key '" ++ show key ++ " found. Using las occurrence.")%string.

(** One round of the loop of [toMap]: the map, and the lines written
    with [console.warn] so far. *)
Definition toMap_item (warnOnDuplicates : bool)
  (st : gmap K V * list string) (item : T) : gmap K V * list string :=
  let '(map, console) := st in
  let key := keySelector item in
  let console' :=
    if warnOnDuplicates && bool_decide (is_Some (map !! key))
    then (console ++ [duplicate_warning key])%list
    else console in
  (<[key := valueSelector item]> map, console').

(** [toMap(keySelector, valueSelector, warnOnDuplicates)] *)
Definition toMap (warnOnDuplicates : bool) (items : list T)
  : gmap K V * list string :=
  fold_left (toMap_item warnOnDuplicates) items (∅, []).

End ToMap.

End Stages.

(** ** What a traversal of an asynchronously memoized sequence has done *)

Module Progress.
Import Enumerable.

Section Traversals.
Context {T S K : Type} `{Countable K}.
Variable key : T -> K.
Variable fn : T -> S.

(** A traversal over [items] has consumed an initial part of them, has
    yielded one Promise per consumed element, and has handed out the
    values of those Promises in order, except for the one it is still
    awaiting. *)
Definition traversal_inv (invoked : list T) (items : list T)
  (tr : traversal (T := T) (S := S) (K := K)) : Prop :=
  exists consumed finished,
    items = consumed ++ upstream tr /\
    (received tr).*1 = key <$> consumed /\
    Forall2 (fun kp y => exists x, invoked !! kp.2 = Some x /\ y = fn x)
            finished (delivered tr) /\
    match awaiting tr with
    | None => received tr = finished
    | Some p => exists k, received tr = finished ++ [(k, p)]
    end.

Definition progress_inv (inputs : list (list T))
  (st : async_memo (T := T) (S := S) (K := K)) : Prop :=
  forall t tr items,
    traversals st !! t = Some tr -> inputs !! t = Some items ->
    traversal_inv (async_invoked st) items tr.

End Traversals.

End Progress.

(** ** Synchronous pulls through a stage *)

Module Sync.
Import JS Enumerable.

(** [Array.from(source)] on the object a sequence wraps: its elements
    when it has the synchronous iteration method.  An object with the
    asynchronous method only has neither that method nor a [length], so it
    is read as an array-like of length [0]. *)
Definition Array_from {T : Type} (source : Iterable T) : list T :=
  match sym_iterator source with
  | Some items => items
  | None => []
  end.

(** [toArray()]: [[...this]]. *)
Definition toArray {T : Type} (self : Enumerable T) : exn + list T :=
  for_of self (fun items => items).

(** [select(mapper).toArray()]: the generator runs
    [for (const item of self)]. *)
Definition select {T S : Type} (mapper : T -> S) (self : Enumerable T)
  : exn + list S :=
  for_of self (fmap mapper).

(** [orderBy(selector).toArray()]: the generator reads
    [Array.from(self.iterable)], the wrapped object itself. *)
Definition orderBy {T K : Type} `{Compare K} (selector : T -> K)
  (self : Enumerable T) : exn + option (list T) :=
  inr (Enumerable.orderBy selector (Array_from (iterable self))).

(** [orderByDescending(selector).toArray()]: the generator reads
    [Array.from(self)], which pulls through [[Symbol.iterator]()]. *)
Definition orderByDescending {T K : Type} `{Compare K} (selector : T -> K)
  (self : Enumerable T) : exn + option (list T) :=
  match iterator self with
  | inl err => inl err
  | inr arr => inr (Enumerable.orderByDescending selector arr)
  end.

End Sync.

(** ** Properties *)

Import JS.

(** *** Numbers *)

Lemma Qred_inject_Z (z : Z) : Qred (inject_Z z) = inject_Z z.
Proof. apply Qcanon.Qred_identity. simpl. apply Z.gcd_1_r. Qed.

(** Equal rationals round to the same double. *)
Lemma round_comp (x y : Q) : (x == y)%Q -> round x = round y.
Proof. intros Heq. unfold round. by rewrite (Qred_complete _ _ Heq). Qed.

Lemma pow2_nonneg (k : Z) : 0 <= k -> pow2 k = inject_Z (2 ^ k).
Proof. intros Hk. unfold pow2. destruct (Z.leb_spec 0 k); [done | lia]. Qed.

Lemma pow2_neg (k : Z) : k < 0 -> (pow2 k * inject_Z (2 ^ (- k)) == 1)%Q.
Proof.
  intros Hk. unfold pow2. destruct (Z.leb_spec 0 k); [lia |].
  assert (0 < 2 ^ (- k)) by (apply Z.pow_pos_nonneg; lia).
  unfold Qeq, Qmult, inject_Z. cbn [Qnum Qden]. rewrite Pos.mul_1_r, Z2Pos.id by done. lia.
Qed.

Lemma round_half_even_integer (x : Q) (m : Z) :
  (x == inject_Z m)%Q -> round_half_even x = m.
Proof.
  intros Hx. unfold round_half_even.
  rewrite (Qfloor_comp _ _ Hx), Qfloor_Z.
  assert (Hd : (x - inject_Z m == 0)%Q) by (rewrite Hx; ring).
  rewrite (Qcompare_comp _ _ Hd _ _ (Qeq_refl _)). reflexivity.
Qed.

(** Integers of magnitude at most [2^53] are doubles. *)
Lemma round_safe_integer (z : Z) :
  Z.abs z <= 2 ^ 53 -> round (inject_Z z) = of_Z z.
Proof.
  intros Hz. unfold round, of_Z. rewrite Qred_inject_Z.
  destruct (Z.eq_dec z 0) as [-> | Hne]; [reflexivity |].
  destruct (Qeq_bool (inject_Z z) 0) eqn:Hq.
  { apply Qeq_bool_iff in Hq. unfold Qeq in Hq. simpl in Hq. lia. }
  clear Hq.
  change (Qabs (inject_Z z)) with (inject_Z (Z.abs z)).
  change (Qnum (inject_Z z)) with z.
  remember (Z.abs z) as n eqn:Hn.
  assert (Hpos : 0 < n) by lia.
  assert (Hlog : 0 <= Z.log2 n <= 53).
  { split; [apply Z.log2_nonneg |].
    destruct (Z.eq_dec n (2 ^ 53)) as [-> | ?]; [by rewrite Z.log2_pow2 |].
    assert (Z.log2 n < 53); [apply Z.log2_lt_pow2; lia | lia]. }
  assert (Hfl : floor_log2 (inject_Z n) = Z.log2 n).
  { unfold floor_log2. simpl. rewrite Z.sub_0_r, pow2_nonneg by lia.
    destruct (Qle_bool (inject_Z (2 ^ Z.log2 n)) (inject_Z n)) eqn:Hle;
      [done |].
    exfalso. assert (Qle_bool (inject_Z (2 ^ Z.log2 n)) (inject_Z n) = true);
      [| congruence].
    apply Qle_bool_iff. rewrite <- Zle_Qle. by apply Z.log2_spec. }
  rewrite Hfl. pose proof (Z.log2_spec n Hpos) as Hspec.
  remember (Z.log2 n) as L eqn:HL.
  replace (Z.max (L - 52) (-1074)) with (L - 52) by lia.
  remember (L - 52) as k eqn:Hk.
  assert (Hm : exists m, (inject_Z n / pow2 k == inject_Z m)%Q /\
                         (inject_Z m * pow2 k == inject_Z n)%Q).
  { destruct (Z.leb_spec 0 k) as [Hk0 | Hk0].
    - assert (Hdiv : exists m, n = m * 2 ^ k).
      { assert (k = 0 \/ k = 1) as [Hk' | Hk'] by lia; rewrite Hk'.
        - exists n. lia.
        - exists (2 ^ 52). assert (L = 53) as -> by lia.
          change (2 ^ 53) with 9007199254740992 in *.
          change (2 ^ (53 + 1)) with 18014398509481984 in *.
          change (2 ^ 52 * 2 ^ 1) with 9007199254740992. lia. }
      destruct Hdiv as [m Hdiv]. exists m.
      rewrite pow2_nonneg by done.
      assert (Hp : 0 < 2 ^ k) by (apply Z.pow_pos_nonneg; lia).
      assert (Hnz : ~ (inject_Z (2 ^ k) == 0)%Q).
      { unfold Qeq. simpl. lia. }
      rewrite Hdiv, inject_Z_mult. split; [field; exact Hnz | reflexivity].
    - exists (n * 2 ^ (- k)).
      pose proof (pow2_neg k Hk0) as Hinv.
      assert (Hnz : ~ (pow2 k == 0)%Q).
      { intros H0. rewrite H0 in Hinv. revert Hinv. unfold Qeq. simpl. lia. }
      rewrite inject_Z_mult. split.
      + apply (Qmult_inj_r _ _ (pow2 k) Hnz).
        transitivity (inject_Z n); [field; exact Hnz |].
        rewrite <- Qmult_assoc, (Qmult_comm (inject_Z (2 ^ (- k)))), Hinv.
        ring.
      + rewrite <- Qmult_assoc, (Qmult_comm (inject_Z (2 ^ (- k)))), Hinv.
        ring. }
  destruct Hm as (m & Hdivk & Hmulk).
  rewrite (round_half_even_integer _ m Hdivk).
  destruct (Qle_bool (pow2 1024) (inject_Z m * pow2 k)) eqn:Hover.
  { exfalso. apply Qle_bool_iff in Hover. rewrite Hmulk in Hover.
    rewrite pow2_nonneg in Hover by lia. rewrite <- Zle_Qle in Hover.
    assert (2 ^ 53 < 2 ^ 1024) by (apply Z.pow_lt_mono_r; lia). lia. }
  f_equal. rewrite <- (Qred_inject_Z z). apply Qred_complete.
  destruct (Z.ltb_spec z 0).
  - rewrite Hmulk, Hn, Z.abs_neq by lia. rewrite inject_Z_opp. ring.
  - rewrite Hmulk, Hn, Z.abs_eq by lia. reflexivity.
Qed.

(** Adding two integers is exact when the sum is of magnitude at most
    [2^53]. *)
Lemma float_add_safe (a b : Z) :
  Z.abs (a + b) <= 2 ^ 53 -> float_add (of_Z a) (of_Z b) = of_Z (a + b).
Proof.
  intros Hab. unfold float_add, of_Z at 1 2.
  rewrite (round_comp _ (inject_Z (a + b))) by (by rewrite inject_Z_plus).
  by apply round_safe_integer.
Qed.

Lemma array_length_integer (q : Q) (c : Z) :
  (q == inject_Z c)%Q ->
  array_length (Finite q)
  = if (0 <=? c) && (c <? 2 ^ 32) then Some (Z.to_nat c) else None.
Proof.
  intros Hq. unfold array_length.
  rewrite (Qred_complete _ _ Hq), Qred_inject_Z. reflexivity.
Qed.

Lemma array_length_Some (len : float) (n : nat) :
  array_length len = Some n ->
  exists q, len = Finite q /\ (q == inject_Z (Z.of_nat n))%Q /\
            Z.of_nat n < 2 ^ 32.
Proof.
  destruct len as [q | |]; [| done..]. unfold array_length.
  pose proof (Qred_correct q) as Hred.
  destruct (Qred q) as [num den]. cbn [Qnum Qden].
  destruct (Z.eqb_spec (Z.pos den) 1) as [Hden|]; [| done].
  destruct (Z.leb_spec 0 num); [| done].
  destruct (Z.ltb_spec num (2 ^ 32)); [| done].
  intros [= <-]. exists q. split; [done |].
  rewrite Z2Nat.id by done. split; [| done].
  rewrite <- Hred. injection Hden as ->. reflexivity.
Qed.

Lemma array_length_fraction (q : Q) :
  (forall c : Z, ~ (q == inject_Z c)%Q) -> array_length (Finite q) = None.
Proof.
  intros Hq. destruct (array_length (Finite q)) as [n|] eqn:Hlen; [| done].
  apply array_length_Some in Hlen as (q' & [= <-] & Heq & _).
  by destruct (Hq _ Heq).
Qed.

(** On every pair of the sample doubles, and of the two zeros for the
    sum, [float_add] and [float_div] give what the Standard Library's
    specification of binary64 arithmetic gives. *)
Example float_add_agrees :
  let operands := S754_zero false :: S754_zero true :: binary64_samples in
  (fun x => (fun y => of_spec_float (SFadd 53 1024 x y)) <$> operands)
    <$> operands
  = (fun x => (fun y => float_add (of_spec_float x) (of_spec_float y))
                <$> operands) <$> operands.
Proof. vm_compute. reflexivity. Qed.

Example float_div_agrees :
  let dividends := S754_zero false :: S754_zero true :: binary64_samples in
  (fun x => (fun y => of_spec_float (SFdiv 53 1024 x y)) <$> binary64_samples)
    <$> dividends
  = (fun x => (fun y => float_div (of_spec_float x) (of_spec_float y))
                <$> binary64_samples) <$> dividends.
Proof. vm_compute. reflexivity. Qed.

(** *** Sequence core *)

Section CoreProperties.
Import Enumerable.

(** [[Symbol.iterator]()] on a sequence whose source offers asynchronous
    iteration only fails at once with the error whose message tells the
    caller to consume asynchronously ([for await] or [toArrayAsync()]); on
    a sequence over a synchronous source it never raises it and hands out
    the source's own iterator. *)
Lemma sync_pull_mode_mismatch {T : Type} (e : Enumerable T) :
  (sym_iterator (iterable e) = None ->
   iterator e = inl (Error async_message)) /\
  (forall items, sym_iterator (iterable e) = Some items ->
   iterator e = inr items /\ forall msg, iterator e <> inl (Error msg)) /\
  (exists at_, String.index 0 "use for await or toArrayAsync()" async_message
                = Some at_).
Proof.
  unfold iterator. split; [| split].
  - intros ->. reflexivity.
  - intros items ->. split; [reflexivity | discriminate].
  - eexists. vm_compute. reflexivity.
Qed.

Lemma sync_pull_mode_mismatch_witness :
  iterator (new_Enumerable (async_source [1; 2])) = inl (Error async_message) /\
  iterator (from [1; 2]) = inr [1; 2].
Proof.
  split.
  - apply (proj1 (sync_pull_mode_mismatch (new_Enumerable (async_source [1; 2])))).
    reflexivity.
  - apply (proj1 (proj2 (sync_pull_mode_mismatch (from [1; 2])))).
    reflexivity.
Defined.

(** C8.  On a sequence built from an asynchronous-only source the
    synchronous pulls [toArray()], [select(mapper).toArray()] and
    [orderByDescending(selector).toArray()] fail at once with the mode
    error, but [orderBy(selector).toArray()] does not: it returns an empty
    array and no error.  On a sequence built from a synchronous source
    none of them raises the error. *)
Theorem orderBy_skips_mode_mismatch {T S K : Type} `{Compare K}
  (mapper : T -> S) (selector : T -> K) (items : list T) :
  let asynchronous := new_Enumerable (async_source items) in
  iterator asynchronous = inl (Error async_message) /\
  Sync.toArray asynchronous = inl (Error async_message) /\
  Sync.select mapper asynchronous = inl (Error async_message) /\
  Sync.orderByDescending selector asynchronous = inl (Error async_message) /\
  Sync.orderBy selector asynchronous = inr (Some []) /\
  Sync.toArray (from items) = inr items /\
  Sync.select mapper (from items) = inr (mapper <$> items) /\
  Sync.orderByDescending selector (from items)
  = inr (orderByDescending selector items) /\
  Sync.orderBy selector (from items) = inr (orderBy selector items).
Proof. repeat split. Qed.

Lemma array_set_fill {A : Type} (f : nat -> A) (k m : nat) :
  array_set k (f k) ((Some ∘ f <$> List.seq 0 k) ++ replicate (Datatypes.S m) None)
  = (Some ∘ f <$> List.seq 0 (Datatypes.S k)) ++ replicate m None.
Proof.
  unfold array_set.
  assert (Hlen : length (Some ∘ f <$> List.seq 0 k) = k)
    by (rewrite length_fmap; apply length_seq).
  rewrite length_app, Hlen, length_replicate.
  destruct (Nat.ltb_spec k (k + Datatypes.S m)) as [_|]; [| lia].
  rewrite seq_S, fmap_app, <- app_assoc. simpl.
  replace k with (length (Some ∘ f <$> List.seq 0 k) + 0)%nat at 1 by lia.
  rewrite insert_app_r. reflexivity.
Qed.

Lemma range_fill_holes {A : Type} (f : nat -> A) (n : nat) :
  fold_left (fun a i => array_set i (f i) a) (List.seq 0 n) (replicate n None)
  = (fun i => Some (f i)) <$> List.seq 0 n.
Proof.
  assert (Hgen : forall k m,
    fold_left (fun a i => array_set i (f i) a) (List.seq 0 k)
              (replicate (k + m) None)
    = (Some ∘ f <$> List.seq 0 k) ++ replicate m None).
  { induction k as [|k IH]; intros m; [reflexivity |].
    replace (Datatypes.S k + m)%nat with (k + Datatypes.S m)%nat by lia.
    rewrite seq_S, fold_left_app, IH. cbn [fold_left Nat.add].
    rewrite array_set_fill, seq_S. reflexivity. }
  specialize (Hgen n O). rewrite Nat.add_0_r, app_nil_r in Hgen. exact Hgen.
Qed.

Lemma iterations_array_length (count : float) (n : nat) :
  array_length count = Some n -> iterations count = List.seq 0 n.
Proof.
  intros (q & -> & Hq & _)%array_length_Some. unfold iterations.
  rewrite (Qceiling_comp _ _ Hq), Qceiling_Z. by rewrite Nat2Z.id.
Qed.

Lemma range_array_length (start count : float) :
  range start count
  = match array_length count with
    | Some n => inr ((fun i => Some (float_add start (of_Z (Z.of_nat i))))
                       <$> List.seq 0 n)
    | None => inl (RangeError "Invalid array length")
    end.
Proof.
  unfold range, new_Array.
  destruct (array_length count) as [n|] eqn:Hlen; [| reflexivity].
  unfold range_fill. rewrite (iterations_array_length _ _ Hlen).
  f_equal. apply (range_fill_holes (fun i => float_add start (of_Z (Z.of_nat i)))).
Qed.

(** C9 (amended).  [range(start, count)] throws the [RangeError] of the
    array constructor at call time whenever [count] is not an array
    length: a negative integer, an integer from [2^32] on, a fraction,
    [NaN] or an infinity.  For an integer [count] with
    [0 <= count < 2^32] it returns the array, built at call time, that
    holds the [count] doubles [start + i] for [i] from [0]; for an integer
    [start] with [|start| + count <= 2^53] these are the integers
    [start], [start + 1], ... *)
Theorem range_materializes_or_throws :
  (forall start count, array_length count = None ->
     range start count = inl (RangeError "Invalid array length")) /\
  (forall start count n, array_length count = Some n ->
     range start count
     = inr ((fun i => Some (float_add start (of_Z (Z.of_nat i))))
              <$> List.seq 0 n)) /\
  (forall c : Z, array_length (of_Z c) = None <-> c < 0 \/ 2 ^ 32 <= c) /\
  (forall q, (forall c : Z, ~ (q == inject_Z c)%Q) ->
     array_length (Finite q) = None) /\
  array_length NotANumber = None /\
  (forall negative, array_length (Infinite negative) = None) /\
  (forall s c : Z, 0 <= c < 2 ^ 32 -> Z.abs s + c <= 2 ^ 53 ->
     range (of_Z s) (of_Z c)
     = inr ((fun i => Some (of_Z (s + Z.of_nat i)))
              <$> List.seq 0 (Z.to_nat c))).
Proof.
  split; [| split; [| split; [| split; [| split; [| split]]]]].
  - intros start count Hlen. by rewrite range_array_length, Hlen.
  - intros start count n Hlen. by rewrite range_array_length, Hlen.
  - intros c. unfold of_Z. rewrite (array_length_integer _ c) by reflexivity.
    destruct (Z.leb_spec 0 c), (Z.ltb_spec c (2 ^ 32)); simpl;
      split; intros; try done; lia.
  - apply array_length_fraction.
  - reflexivity.
  - reflexivity.
  - intros s c Hc Hs. rewrite range_array_length.
    change (array_length (of_Z c)) with (array_length (Finite (inject_Z c))).
    rewrite (array_length_integer _ c) by reflexivity.
    destruct (Z.leb_spec 0 c), (Z.ltb_spec c (2 ^ 32)); simpl; try lia.
    f_equal. apply Forall_fmap_ext_1, Forall_forall. intros i Hi.
    apply elem_of_seq in Hi. f_equal. apply float_add_safe. lia.
Qed.

Lemma range_materializes_or_throws_witness :
  range (of_Z 5) (Finite (3 # 2)) = inl (RangeError "Invalid array length") /\
  range (of_Z 5) (of_Z (-1)) = inl (RangeError "Invalid array length") /\
  range (of_Z 5) (of_Z 3) = inr [Some (of_Z 5); Some (of_Z 6); Some (of_Z 7)].
Proof.
  split; [| split].
  - apply (proj1 range_materializes_or_throws). reflexivity.
  - apply (proj1 range_materializes_or_throws).
    apply (proj1 (proj2 (proj2 range_materializes_or_throws))). lia.
  - apply (proj2 (proj2 (proj2 (proj2 (proj2 (proj2
             range_materializes_or_throws))))) 5 3); simpl; lia.
Defined.

(** C9 as stated fails: a count of [2^32] is not negative, and the call
    throws instead of materializing. *)
Lemma range_huge_count_throws :
  0 <= 4294967296 /\
  range (of_Z 1) (of_Z 4294967296) = inl (RangeError "Invalid array length").
Proof. split; [lia | reflexivity]. Qed.

(** Past [2^53] the sums [start + i] are rounded: [range(2^53, 2)] holds
    [2^53] twice. *)
Example range_rounds_past_2_53 :
  range (of_Z (2 ^ 53)) (of_Z 2) = inr [Some (of_Z (2 ^ 53)); Some (of_Z (2 ^ 53))].
Proof. vm_compute. reflexivity. Qed.

(** C6.  On an empty sequence: [first] is absent, [count], [sum] and
    [average] are [0], [max] and [min] are absent, [all(p)] is [true],
    [any()] and [any(p)] are [false], [contains] is [false]. *)
Theorem empty_sequence_policy {T : Type} `{Compare T} (Number : T -> float)
  (p : T -> bool) (sel : T -> float) (v : T) :
  first None (@empty T) = inr None /\
  first (Some p) (@empty T) = inr None /\
  count None (@empty T) = inr 0 /\
  count (Some p) (@empty T) = inr 0 /\
  sum Number None (@empty T) = inr (of_Z 0) /\
  sum Number (Some sel) (@empty T) = inr (of_Z 0) /\
  average Number None (@empty T) = inr (of_Z 0) /\
  average Number (Some sel) (@empty T) = inr (of_Z 0) /\
  max (@empty T) = inr None /\
  min (@empty T) = inr None /\
  all p (@empty T) = inr true /\
  any None (@empty T) = inr false /\
  any (Some p) (@empty T) = inr false /\
  contains v (@empty T) = inr false.
Proof. repeat split. Qed.

(** *** Deferred stages *)

Lemma take_loop_invocations {E T : Type} (n : Z) (g : Gen E T) :
  forall i, invocations (take_loop n i g) = invocations g.
Proof.
  induction g as [|item rest IH|call rest IH]; intros i; simpl.
  - reflexivity.
  - destruct (i <=? n); simpl; apply IH.
  - f_equal. apply IH.
Qed.

Lemma take_loop_toArray {E T : Type} (n : Z) (g : Gen E T) :
  forall i, toArray (take_loop n i g)
            = firstn (Z.to_nat (n - i + 1)) (toArray g).
Proof.
  induction g as [|item rest IH|call rest IH]; intros i; simpl.
  - symmetry. apply firstn_nil.
  - destruct (Z.leb_spec i n); simpl.
    + replace (Z.to_nat (n - i + 1))
        with (Datatypes.S (Z.to_nat (n - (i + 1) + 1))) by lia.
      simpl. f_equal. apply IH.
    + rewrite IH. replace (Z.to_nat (n - i + 1)) with O by lia. reflexivity.
  - apply IH.
Qed.

Lemma select_of_array_invocations {T S : Type} (mapper : T -> S)
  (items : list T) :
  invocations (select mapper (of_array (E := Empty_set) items))
  = inr <$> items.
Proof.
  induction items as [|item rest IH]; simpl; [reflexivity |].
  f_equal. exact IH.
Qed.

(** C10.  Driving [take(n)] to its end drives its upstream to its end:
    every invocation an upstream stage performs is performed, so a
    [select] mapper below [take(n)] is invoked once per element of the
    source, while [take(n)] yields only the first [n] elements. *)
Theorem take_consumes_upstream {E T S : Type} (n : Z) (g : Gen E T)
  (mapper : T -> S) (items : list T) :
  invocations (take n g) = invocations g /\
  toArray (take n g) = firstn (Z.to_nat n) (toArray g) /\
  invocations (take n (select mapper (of_array (E := Empty_set) items)))
  = inr <$> items /\
  toArray (take n (select mapper (of_array (E := Empty_set) items)))
  = firstn (Z.to_nat n) (mapper <$> items).
Proof.
  unfold take. split; [apply take_loop_invocations |].
  assert (Hto : forall (E' T' : Type) (h : Gen E' T'),
             toArray (take_loop n 1 h) = firstn (Z.to_nat n) (toArray h)).
  { intros E' T' h. rewrite take_loop_toArray. do 2 f_equal. lia. }
  split; [apply Hto |]. split.
  - rewrite take_loop_invocations. apply select_of_array_invocations.
  - rewrite Hto. f_equal.
    induction items as [|item rest IH]; simpl; [reflexivity |].
    f_equal. exact IH.
Qed.

End CoreProperties.

(** *** Set-like operators *)

Section SetLikeProperties.
Import Enumerable.
Context {T K : Type} `{Countable K}.

Lemma filter_filter_and (p q : T -> bool) (l : list T) :
  List.filter p (List.filter q l) = List.filter (fun x => q x && p x) l.
Proof.
  induction l as [|x l IH]; simpl; [reflexivity |].
  destruct (q x); simpl; [destruct (p x) |]; rewrite IH; reflexivity.
Qed.

Lemma filter_all (p : T -> bool) (l : list T) :
  (forall x, p x = true) -> List.filter p l = l.
Proof.
  intros Hp. induction l as [|x l IH]; simpl; [reflexivity |].
  rewrite Hp, IH. reflexivity.
Qed.

(** Filtering on the key commutes with first-seen deduplication. *)
Lemma first_seen_filter (key : T -> K) (P : K -> bool) (l : list T) :
  List.filter (fun y => P (key y)) (Spec.first_seen key l)
  = Spec.first_seen key (List.filter (fun y => P (key y)) l).
Proof.
  induction l as [|x l IH]; simpl; [reflexivity |].
  destruct (P (key x)) eqn:HPx; simpl.
  - f_equal. rewrite <- IH.
    rewrite !filter_filter_and. apply List.filter_ext.
    intros y. apply andb_comm.
  - rewrite <- IH, filter_filter_and. apply List.filter_ext.
    intros y. destruct (P (key y)) eqn:HPy; [| apply andb_false_r].
    rewrite andb_true_r. apply negb_true_iff, bool_decide_eq_false.
    intros Heq. congruence.
Qed.

Lemma first_seen_filter_ne (key : T -> K) (k : K) (l : list T) :
  List.filter (fun y => negb (bool_decide (key y = k))) (Spec.first_seen key l)
  = Spec.first_seen key
      (List.filter (fun y => negb (bool_decide (key y = k))) l).
Proof.
  exact (first_seen_filter key (fun k' => negb (bool_decide (k' = k))) l).
Qed.

Lemma seen_loop_app (key : T -> K) (l1 l2 : list T) :
  forall seen,
    seen_loop key seen (l1 ++ l2)
    = let '(out1, seen1) := seen_loop key seen l1 in
      let '(out2, seen2) := seen_loop key seen1 l2 in
      (out1 ++ out2, seen2).
Proof.
  induction l1 as [|x l1 IH]; intros seen; simpl.
  - destruct (seen_loop key seen l2); reflexivity.
  - destruct (bool_decide (key x ∈ seen)); [apply IH |].
    rewrite IH.
    destruct (seen_loop key ({[key x]} ∪ seen) l1) as [out1 seen1].
    destruct (seen_loop key seen1 l2); reflexivity.
Qed.

(** The loop yields the first-seen deduplication of the elements whose
    key was not in [seen] at its start. *)
Lemma seen_loop_first_seen (key : T -> K) (l : list T) :
  forall seen,
    fst (seen_loop key seen l)
    = Spec.first_seen key
        (List.filter (fun y => negb (bool_decide (key y ∈ seen))) l).
Proof.
  induction l as [|x l IH]; intros seen; simpl; [reflexivity |].
  destruct (bool_decide (key x ∈ seen)) eqn:Hx; simpl; [apply IH |].
  specialize (IH ({[key x]} ∪ seen)).
  destruct (seen_loop key ({[key x]} ∪ seen) l) as [out seen']. simpl in *.
  f_equal. rewrite IH.
  rewrite first_seen_filter_ne.
  f_equal. rewrite filter_filter_and. apply List.filter_ext.
  intros y. apply bool_decide_eq_false in Hx.
  destruct (decide (key y = key x)) as [Heq|Hne].
  - rewrite (bool_decide_eq_true_2 (key y = key x)) by done.
    rewrite (bool_decide_eq_true_2 (key y ∈ {[key x]} ∪ seen)) by set_solver.
    simpl. symmetry. apply andb_false_r.
  - rewrite (bool_decide_eq_false_2 (key y = key x)) by done.
    simpl. rewrite andb_true_r. f_equal.
    apply bool_decide_ext. set_solver.
Qed.

(** The keys of a first-seen deduplication are pairwise different, and
    every element of the input has its key there. *)
Lemma NoDup_fmap_filter (key : T -> K) (p : T -> bool) (l : list T) :
  NoDup (key <$> l) -> NoDup (key <$> List.filter p l).
Proof.
  induction l as [|y r IH]; simpl; [constructor |].
  intros Hnd. inversion Hnd as [|? ? Hnotin Hnd']; subst.
  destruct (p y); simpl; [| auto].
  constructor; [| auto].
  rewrite list_elem_of_fmap. intros (z & Hz & Hin).
  apply Hnotin. rewrite list_elem_of_fmap. exists z. split; [done |].
  apply list_elem_of_In, filter_In in Hin. apply list_elem_of_In, Hin.
Qed.

Lemma first_seen_keys (key : T -> K) (l : list T) :
  NoDup (key <$> Spec.first_seen key l) /\
  (forall k, k ∈ key <$> Spec.first_seen key l <-> k ∈ key <$> l).
Proof.
  induction l as [|x l [IHnd IHin]]; simpl.
  - split; [constructor | reflexivity].
  - set (F := List.filter _ (Spec.first_seen key l)).
    assert (HF : forall y, y ∈ F <-> y ∈ Spec.first_seen key l /\ key y <> key x).
    { intros y. unfold F. rewrite !list_elem_of_In, filter_In.
      rewrite negb_true_iff, bool_decide_eq_false. reflexivity. }
    split.
    + constructor; [| by apply NoDup_fmap_filter].
      rewrite list_elem_of_fmap. intros (y & Hy & Hin).
      apply HF in Hin. destruct Hin as [_ Hne]. congruence.
    + intros k. rewrite !elem_of_cons, <- IHin, !list_elem_of_fmap. split.
      * intros [-> | (y & -> & Hin)]; [by left |].
        right. exists y. split; [done |]. by apply HF in Hin as [Hin _].
      * intros [-> | (y & -> & Hin)]; [by left |].
        destruct (decide (key y = key x)) as [Heq|Hne]; [by left |].
        right. exists y. split; [done |]. by apply HF.
Qed.

Lemma first_seen_app (key : T -> K) (l1 l2 : list T) :
  Spec.first_seen key (l1 ++ l2)
  = Spec.first_seen key l1
    ++ Spec.first_seen key
         (List.filter (fun y => negb (bool_decide (key y ∈ key <$> l1))) l2).
Proof.
  induction l1 as [|x l1 IH]; simpl.
  - f_equal. symmetry. apply filter_all. intros y. reflexivity.
  - f_equal. rewrite IH, List.filter_app, !first_seen_filter_ne. do 2 f_equal.
    rewrite filter_filter_and. apply List.filter_ext. intros y.
    destruct (decide (key y = key x)) as [Heq|Hne].
    + rewrite (bool_decide_eq_true_2 (key y = key x)) by done.
      rewrite (bool_decide_eq_true_2 (key y ∈ key x :: _)) by (rewrite Heq; left).
      apply andb_false_r.
    + rewrite (bool_decide_eq_false_2 (key y = key x)) by done.
      rewrite andb_true_r. f_equal. apply bool_decide_ext.
      rewrite elem_of_cons. tauto.
Qed.

Lemma first_seen_length (key : T -> K) (l : list T) :
  length (Spec.first_seen key l) = Spec.distinct_keys key l.
Proof.
  destruct (first_seen_keys key l) as [Hnd Hin]. unfold Spec.distinct_keys.
  rewrite <- (length_fmap key).
  rewrite <- (size_list_to_set (C := gset K) (key <$> Spec.first_seen key l))
    by exact Hnd.
  f_equal. apply set_eq. intros k. rewrite !elem_of_list_to_set. apply Hin.
Qed.

Lemma first_with_app_Some (key : T -> K) (k : K) (l1 l2 : list T) (x : T) :
  Spec.first_with key k l1 = Some x ->
  Spec.first_with key k (l1 ++ l2) = Some x.
Proof.
  unfold Spec.first_with. induction l1 as [|y l1 IH]; simpl; [discriminate |].
  destruct (bool_decide (key y = k)); [done | exact IH].
Qed.

Lemma first_with_app_None (key : T -> K) (k : K) (l1 l2 : list T) :
  Spec.first_with key k l1 = None ->
  Spec.first_with key k (l1 ++ l2) = Spec.first_with key k l2.
Proof.
  unfold Spec.first_with. induction l1 as [|y l1 IH]; simpl; [done |].
  destruct (bool_decide (key y = k)); [discriminate | exact IH].
Qed.

Lemma first_with_None (key : T -> K) (k : K) (l : list T) :
  Spec.first_with key k l = None <-> k ∉ key <$> l.
Proof.
  unfold Spec.first_with. induction l as [|y l IH]; simpl.
  - split; [intros _; apply not_elem_of_nil | done].
  - rewrite not_elem_of_cons.
    destruct (bool_decide_reflect (key y = k)) as [Heq|Hne].
    + split; [discriminate | intros [Hne _]; congruence].
    + rewrite IH. split; [intros Hn; split; [congruence | done] | tauto].
Qed.

Lemma first_with_elem (key : T -> K) (l : list T) (x : T) :
  x ∈ l -> exists x0, Spec.first_with key (key x) l = Some x0.
Proof.
  intros Hin. destruct (Spec.first_with key (key x) l) eqn:Hf; [eauto |].
  apply first_with_None in Hf. exfalso. apply Hf.
  apply list_elem_of_fmap. eauto.
Qed.

Variable same : T -> K.

(** C5.  [union(other, keySelector?)] yields the first-seen-order
    deduplication of self followed by other, under the key chosen by
    [keySelector] (the element itself when there is none): the distinct
    elements of self, then the elements of other not seen before, with
    pairwise different keys covering every key of both inputs. *)
Theorem union_first_seen (self other : list T)
  (keySelector : option (T -> K)) :
  let key := set_key same keySelector in
  union same self other keySelector = Spec.first_seen key (self ++ other) /\
  union same self other keySelector
  = Spec.first_seen key self
    ++ Spec.first_seen key
         (List.filter (fun y => negb (bool_decide (key y ∈ key <$> self))) other) /\
  NoDup (key <$> union same self other keySelector) /\
  (forall k, k ∈ key <$> union same self other keySelector
             <-> k ∈ key <$> (self ++ other)).
Proof.
  intros key.
  assert (Hall : forall l : list T,
             List.filter (fun y => negb (bool_decide (key y ∈ (∅ : gset K)))) l = l).
  { intros l. apply filter_all. intros x.
    apply negb_true_iff, bool_decide_eq_false. set_solver. }
  assert (Hu : union same self other keySelector
               = Spec.first_seen key (self ++ other)).
  { pose proof (seen_loop_first_seen key (self ++ other) ∅) as Hspec.
    rewrite seen_loop_app, Hall in Hspec. unfold union. fold key.
    destruct (seen_loop key ∅ self) as [out1 seen1].
    destruct (seen_loop key seen1 other) as [out2 seen2]. exact Hspec. }
  split; [exact Hu |]. split.
  - clear Hu. unfold union. fold key.
    pose proof (seen_loop_first_seen key self ∅) as H1. rewrite Hall in H1.
    assert (Hseen : forall l seen,
               snd (seen_loop key seen l) = list_to_set (key <$> l) ∪ seen).
    { induction l as [|x l IH]; intros seen; simpl; [set_solver |].
      destruct (bool_decide (key x ∈ seen)) eqn:Hx.
      - rewrite IH. apply bool_decide_eq_true in Hx. set_solver.
      - specialize (IH ({[key x]} ∪ seen)).
        destruct (seen_loop key ({[key x]} ∪ seen) l). simpl in *.
        rewrite IH. set_solver. }
    specialize (Hseen self ∅).
    pose proof (seen_loop_first_seen key other) as H2.
    destruct (seen_loop key ∅ self) as [out1 seen1]. simpl in *.
    specialize (H2 seen1).
    destruct (seen_loop key seen1 other) as [out2 seen2]. simpl in *.
    rewrite H1, H2. do 2 f_equal. apply List.filter_ext. intros y.
    f_equal. apply bool_decide_ext. rewrite Hseen. set_solver.
  - rewrite Hu. apply first_seen_keys.
Qed.

(** Without a key selector, [intersect] is the intersection as worded:
    the elements of self whose key is a key of other. *)
Lemma intersect_no_selector (self other : list T) :
  intersect same self other None = Spec.intersect_by_key same self other.
Proof. reflexivity. Qed.

End SetLikeProperties.

(** C4.  With a key selector, [intersect] tests the key of an element of
    self against the elements of other, not against their keys: with
    [x => 2 * x] on [[1; 2; 3]] and [[2; 4]] it yields [[1; 2]], where the
    elements of self whose key is a key of other are [[2]]. *)
Theorem intersect_compares_keys_with_elements :
  Enumerable.intersect id [1; 2; 3] [2; 4] (Some (fun x => 2 * x)) = [1; 2] /\
  Spec.intersect_by_key (fun x => 2 * x) [1; 2; 3] [2; 4] = [2].
Proof. split; vm_compute; reflexivity. Qed.

(** *** Default keys *)

Section DefaultKeys.
Import Enumerable.

(** The text [JSON.stringify] produces does not depend on references. *)
Fixpoint stringify_structure (v : value) :
  JSON_stringify (structure v) = JSON_stringify v.
Proof.
  destruct v as [| n | s | ref props]; try reflexivity.
  simpl. do 4 f_equal.
  induction props as [|[k x] ps IH]; simpl; [reflexivity |].
  rewrite (stringify_structure x).
  destruct (JSON_stringify x); [f_equal |]; exact IH.
Qed.

(** A line feed, the control character with code 1, a quotation mark and
    a backslash in a string come out as their escapes. *)
Example JSON_stringify_escapes :
  let text := String (Ascii.ascii_of_nat 10)
                (String (Ascii.ascii_of_nat 1) (dquote ++ backslash ++ "a"))%string in
  JSON_stringify (VStr text)
  = Some (dquote ++ backslash ++ "n" ++ backslash ++ "u0001"
          ++ backslash ++ dquote ++ backslash ++ backslash ++ "a"
          ++ dquote)%string.
Proof. vm_compute. reflexivity. Qed.

Lemma same_layout_JSON_key (a b : value) :
  same_layout a b -> JSON_key a = JSON_key b.
Proof.
  unfold same_layout, JSON_key. intros Heq.
  rewrite <- (stringify_structure a), <- (stringify_structure b), Heq.
  reflexivity.
Qed.

(** Values that differ in references only are structurally equal. *)
Fixpoint same_layout_structurally_equal (a b : value) {struct a} :
  same_layout a b -> structurally_equal a b.
Proof.
  destruct a as [| n | s | ref1 props1], b as [| m | t | ref2 props2];
    unfold same_layout; simpl; intros Heq; try discriminate.
  - constructor.
  - injection Heq as ->. constructor.
  - injection Heq as ->. constructor.
  - injection Heq as Heq.
    apply (equal_obj ref1 ref2 props1 props2 props2); [reflexivity |].
    revert props2 Heq.
    induction props1 as [|[k x] props1 IH]; intros [|[k' x'] props2] Heq;
      simpl in Heq; try discriminate; constructor.
    + injection Heq as -> Hx _. split; [reflexivity |].
      apply same_layout_structurally_equal. exact Hx.
    + apply IH. by injection Heq.
Qed.

(** Two keys, one cache entry each: [fn] runs on both elements. *)
Lemma memoize_two_keys {S : Type} (fn : value -> S) (a b : value) :
  memo_key JSON_key None a <> memo_key JSON_key None b ->
  fst (memoize JSON_key fn None memo_init [a; b]) = [fn a; fn b] /\
  invoked (snd (memoize JSON_key fn None memo_init [a; b])) = [a; b].
Proof.
  intros Hne. unfold memoize, memoize_item, memo_init. simpl.
  rewrite !lookup_empty. simpl.
  rewrite lookup_insert_ne by done. rewrite lookup_empty. simpl. auto.
Qed.

(** C7 (amended).  Without a key selector, [memoize] and [memoizeAsync]
    take the text [JSON.stringify] gives for the element as its key.  Two
    elements that differ in object identity only (the same properties with
    the same values in the same order) are structurally equal and share
    one cache entry; two elements with different texts are two entries,
    and structurally equal objects whose properties come in a different
    order, as [{a: 1, b: 2}] and [{b: 2, a: 1}], are such elements.
    [distinct], [union] and [intersect] compare the elements themselves
    the way a [Set] does, so two elements are one key exactly when they
    are the same primitive value or the same object. *)
Theorem default_key_derivation {S : Type} (fn : value -> S) (a b : value) :
  (memo_key JSON_key None a = memo_key JSON_key None b
   <-> JSON_stringify a = JSON_stringify b) /\
  (same_layout a b ->
   structurally_equal a b /\
   memo_key JSON_key None a = memo_key JSON_key None b /\
   fst (memoize JSON_key fn None memo_init [a; b]) = [fn a; fn a] /\
   invoked (snd (memoize JSON_key fn None memo_init [a; b])) = [a] /\
   fst (memoizeAsync_item (S := S) JSON_key None
          (snd (memoizeAsync_item (S := S) JSON_key None (async_init [[a; b]]) a)) b)
   = fst (memoizeAsync_item (S := S) JSON_key None (async_init [[a; b]]) a)) /\
  (memo_key JSON_key None a <> memo_key JSON_key None b ->
   fst (memoize JSON_key fn None memo_init [a; b]) = [fn a; fn b] /\
   invoked (snd (memoize JSON_key fn None memo_init [a; b])) = [a; b]) /\
  (forall ref1 ref2,
     let ab := VObj ref1 [("a"%string, VNum 1); ("b"%string, VNum 2)] in
     let ba := VObj ref2 [("b"%string, VNum 2); ("a"%string, VNum 1)] in
     structurally_equal ab ba /\
     memo_key JSON_key None ab <> memo_key JSON_key None ba /\
     fst (memoize JSON_key fn None memo_init [ab; ba]) = [fn ab; fn ba] /\
     invoked (snd (memoize JSON_key fn None memo_init [ab; ba])) = [ab; ba]) /\
  (set_key identity_of None a = set_key identity_of None b
   <-> identity_of a = identity_of b) /\
  distinct identity_of [a; b]
  = (if decide (identity_of a = identity_of b) then [a] else [a; b]) /\
  union identity_of [a] [b] None
  = (if decide (identity_of a = identity_of b) then [a] else [a; b]) /\
  intersect identity_of [a] [b] None
  = (if decide (identity_of a = identity_of b) then [a] else []).
Proof.
  split; [| split; [| split; [| split; [| split; [reflexivity |]]]]].
  - unfold memo_key, JSON_key.
    destruct (JSON_stringify a), (JSON_stringify b); split; congruence.
  - intros Heq. split; [by apply same_layout_structurally_equal |].
    apply same_layout_JSON_key in Heq.
    unfold memoize, memoize_item, memoizeAsync_item, memo_key, memo_init.
    simpl. rewrite !lookup_empty. simpl. rewrite <- Heq.
    rewrite !lookup_insert_eq. simpl. auto.
  - apply memoize_two_keys.
  - intros ref1 ref2 ab ba.
    assert (Hne : memo_key JSON_key None ab <> memo_key JSON_key None ba)
      by (vm_compute; discriminate).
    split; [| split; [exact Hne | by apply memoize_two_keys]].
    apply (equal_obj ref1 ref2 _ _ [("a"%string, VNum 1); ("b"%string, VNum 2)]).
    + apply perm_swap.
    + repeat constructor.
  - unfold distinct, union, intersect, toSet, set_key. simpl.
    rewrite (bool_decide_eq_false_2 (identity_of a ∈ (∅ : gset identity)))
      by set_solver.
    destruct (decide (identity_of a = identity_of b)) as [Heq|Hne].
    + rewrite (bool_decide_eq_true_2 (identity_of b ∈ _)) by set_solver.
      rewrite (bool_decide_eq_true_2 (identity_of a ∈ _)) by set_solver.
      simpl. auto.
    + rewrite (bool_decide_eq_false_2 (identity_of b ∈ _)) by set_solver.
      rewrite (bool_decide_eq_false_2 (identity_of a ∈ _)) by set_solver.
      simpl. auto.
Qed.

Lemma default_key_derivation_witness :
  let a := VObj 1 [("id"%string, VNum 1)] in
  let b := VObj 2 [("id"%string, VNum 1)] in
  let c := VObj 3 [("id"%string, VNum 2)] in
  fst (memoize JSON_key (fun v => v) None memo_init [a; b]) = [a; a] /\
  fst (memoize JSON_key (fun v => v) None memo_init [a; c]) = [a; c].
Proof.
  intros a b c. split.
  - apply (proj1 (proj2 (default_key_derivation (fun v => v) a b))).
    reflexivity.
  - apply (proj1 (proj2 (proj2 (default_key_derivation (fun v => v) a c)))).
    vm_compute. discriminate.
Defined.

(** C7 as stated fails twice.  For the set-like operators, two
    structurally equal objects stored at different references are two
    keys for [distinct], [union] and [intersect].  For [memoize], two
    structurally equal objects whose properties come in a different order
    are two keys, and the function runs on each. *)
Lemma set_operators_compare_references :
  let a := VObj 1 [("id"%string, VNum 1)] in
  let b := VObj 2 [("id"%string, VNum 1)] in
  let ab := VObj 3 [("a"%string, VNum 1); ("b"%string, VNum 2)] in
  let ba := VObj 4 [("b"%string, VNum 2); ("a"%string, VNum 1)] in
  (structurally_equal a b /\
   set_key identity_of None a <> set_key identity_of None b /\
   distinct identity_of [a; b] = [a; b] /\
   union identity_of [a] [b] None = [a; b] /\
   intersect identity_of [a] [b] None = []) /\
  (structurally_equal ab ba /\
   memo_key JSON_key None ab <> memo_key JSON_key None ba /\
   invoked (snd (memoize JSON_key (fun v => v) None memo_init [ab; ba]))
   = [ab; ba]).
Proof.
  intros a b ab ba. split.
  - split; [by apply same_layout_structurally_equal |].
    split; [discriminate |].
    split; [| split]; vm_compute; reflexivity.
  - split; [| split; [vm_compute; discriminate | vm_compute; reflexivity]].
    apply (equal_obj 3 4 _ _ [("a"%string, VNum 1); ("b"%string, VNum 2)]).
    + apply perm_swap.
    + repeat constructor.
Qed.

End DefaultKeys.

(** *** Memoization *)

Section MemoizeProperties.
Import Enumerable.
Context {T S K : Type} `{Countable K}.
Variable stringify : T -> K.
Variable fn : T -> S.
Variable keySelector : option (T -> K).

Notation key := (memo_key stringify keySelector).
Notation inv := (Invariant.memo_inv key fn).

Lemma first_seen_snoc (h : list T) (x : T) :
  Spec.first_seen key (h ++ [x])
  = Spec.first_seen key h
    ++ (if bool_decide (key x ∈ key <$> h) then [] else [x]).
Proof.
  rewrite first_seen_app. simpl.
  destruct (bool_decide (key x ∈ key <$> h)); reflexivity.
Qed.

Lemma first_with_snoc (k : K) (h : list T) (x : T) :
  Spec.first_with key k (h ++ [x])
  = match Spec.first_with key k h with
    | Some y => Some y
    | None => if bool_decide (key x = k) then Some x else None
    end.
Proof.
  destruct (Spec.first_with key k h) eqn:Hf.
  - by apply first_with_app_Some.
  - rewrite first_with_app_None by done. reflexivity.
Qed.

Lemma memo_inv_init : inv [] (memo_init (S := S)).
Proof. split; [intros k; apply lookup_empty | reflexivity]. Qed.

(** One round of the loop keeps the invariant and yields the result for
    the first element with the key of the current one. *)
Lemma memoize_item_spec (h : list T) (m : memo) (item : T) :
  inv h m ->
  inv (h ++ [item]) (snd (memoize_item stringify fn keySelector m item)) /\
  Some (fst (memoize_item stringify fn keySelector m item))
  = fn <$> Spec.first_with key (key item) (h ++ [item]).
Proof.
  intros [Hcache Hinv]. unfold memoize_item.
  pose proof (Hcache (key item)) as Hk.
  destruct (cache m !! key item) as [cached|] eqn:Hc; simpl.
  - destruct (Spec.first_with key (key item) h) as [x0|] eqn:Hf;
      [| discriminate].
    assert (Hin : key item ∈ key <$> h).
    { destruct (decide (key item ∈ key <$> h)) as [|Hn]; [done |].
      apply first_with_None in Hn. congruence. }
    split; [split |].
    + intros k. rewrite first_with_snoc, Hcache.
      destruct (Spec.first_with key k h) eqn:Hfk; [done |].
      destruct (bool_decide_reflect (key item = k)) as [<-|]; [| done].
      congruence.
    + rewrite first_seen_snoc, bool_decide_eq_true_2, app_nil_r by done.
      exact Hinv.
    + rewrite first_with_snoc, Hf. exact Hk.
  - destruct (Spec.first_with key (key item) h) as [x0|] eqn:Hf;
      [discriminate |].
    apply first_with_None in Hf as Hnin.
    split; [split |]; simpl.
    + intros k. rewrite first_with_snoc.
      destruct (decide (key item = k)) as [<-|Hne].
      * rewrite lookup_insert_eq, Hf, bool_decide_eq_true_2 by done.
        reflexivity.
      * rewrite lookup_insert_ne, Hcache, bool_decide_eq_false_2 by done.
        destruct (Spec.first_with key k h); reflexivity.
    + rewrite first_seen_snoc, bool_decide_eq_false_2 by done.
      by rewrite Hinv.
    + rewrite first_with_snoc, Hf, bool_decide_eq_true_2 by done.
      reflexivity.
Qed.

(** One full traversal: every element is answered, in order, with the
    result for the first element of the whole history with its key. *)
Lemma memoize_spec (items : list T) :
  forall (h : list T) (m : memo),
    inv h m ->
    inv (h ++ items) (snd (memoize stringify fn keySelector m items)) /\
    Forall2 (fun x y => Some y = fn <$> Spec.first_with key (key x) (h ++ items))
            items (fst (memoize stringify fn keySelector m items)).
Proof.
  induction items as [|item rest IH]; intros h m Hinv; simpl.
  - rewrite app_nil_r. split; [exact Hinv | constructor].
  - destruct (memoize_item_spec h m item Hinv) as [Hinv1 Hy].
    destruct (memoize_item stringify fn keySelector m item) as [y m1].
    simpl in *. destruct (IH _ _ Hinv1) as [Hinv2 Hys].
    destruct (memoize stringify fn keySelector m1 rest) as [ys m2].
    simpl in *. rewrite <- app_assoc in Hinv2, Hys. simpl in *.
    split; [exact Hinv2 |]. constructor; [| exact Hys].
    destruct (Spec.first_with key (key item) (h ++ [item])) as [x0|] eqn:Hf;
      [| discriminate].
    apply (first_with_app_Some key _ _ rest) in Hf.
    rewrite <- app_assoc in Hf. simpl in Hf. rewrite Hf. exact Hy.
Qed.

(** Successive traversals share the cache: the history is the
    concatenation of everything pulled so far. *)
Lemma memoize_traversals_spec (inputs : list (list T)) :
  forall (h : list T) (m : memo),
    inv h m ->
    inv (h ++ concat inputs)
        (snd (memoize_traversals stringify fn keySelector m inputs)) /\
    Forall2 (fun items out =>
               Forall2 (fun x y =>
                          Some y = fn <$> Spec.first_with key (key x)
                                            (h ++ concat inputs))
                       items out)
            inputs (fst (memoize_traversals stringify fn keySelector m inputs)).
Proof.
  induction inputs as [|items later IH]; intros h m Hinv; simpl.
  - rewrite app_nil_r. split; [exact Hinv | constructor].
  - destruct (memoize_spec items h m Hinv) as [Hinv1 Hout].
    destruct (memoize stringify fn keySelector m items) as [out m1].
    simpl in *. destruct (IH _ _ Hinv1) as [Hinv2 Houts].
    destruct (memoize_traversals stringify fn keySelector m1 later)
      as [outs m2].
    simpl in *. rewrite <- app_assoc in Hinv2, Houts.
    split; [exact Hinv2 |]. constructor; [| exact Houts].
    eapply Forall2_impl; [exact Hout |]. intros x y Hy. simpl in Hy.
    destruct (Spec.first_with key (key x) (h ++ items)) as [x0|] eqn:Hf;
      [| discriminate].
    apply (first_with_app_Some key _ _ (concat later)) in Hf.
    rewrite <- app_assoc in Hf. rewrite Hf. exact Hy.
Qed.

Lemma replicate_keys (items : list T) (n : nat) :
  Spec.distinct_keys key (concat (replicate (Datatypes.S n) items))
  = Spec.distinct_keys key items.
Proof.
  unfold Spec.distinct_keys. f_equal. apply set_eq. intros k.
  rewrite !elem_of_list_to_set.
  induction n as [|n IH]; simpl in *.
  - by rewrite app_nil_r.
  - rewrite fmap_app, elem_of_app, IH. tauto.
Qed.

(** C2.  Over an input with [k] distinct keys, any number [n >= 1] of full
    traversals of one memoized sequence invokes [fn] exactly [k] times,
    once per distinct key; each traversal yields as many elements as the
    input has, in the input's order, each being the result computed for
    the first element with the same key. *)
Theorem memoize_once_per_key (items : list T) (n : nat) :
  (1 <= n)%nat ->
  let run := memoize_traversals stringify fn keySelector memo_init
                                (replicate n items) in
  length (invoked (snd run)) = Spec.distinct_keys key items /\
  NoDup (key <$> invoked (snd run)) /\
  length (fst run) = n /\
  Forall (fun out =>
            length out = length items /\
            Forall2 (fun x y =>
                       exists x0, Spec.first_with key (key x) items = Some x0 /\
                                  y = fn x0)
                    items out)
         (fst run).
Proof.
  intros Hn run.
  destruct n as [|n]; [lia |].
  destruct (memoize_traversals_spec (replicate (Datatypes.S n) items) []
              memo_init memo_inv_init) as [[_ Hinvoked] Houts].
  fold run in Hinvoked, Houts. simpl app in Hinvoked, Houts.
  split; [| split; [| split]].
  - rewrite Hinvoked, first_seen_length. apply replicate_keys.
  - rewrite Hinvoked. apply first_seen_keys.
  - apply Forall2_length in Houts. rewrite length_replicate in Houts. done.
  - apply Forall_forall. intros out Hout.
    apply list_elem_of_lookup in Hout as [i Hi].
    destruct (Forall2_lookup_r _ _ _ _ _ Houts Hi) as (its & Hits & Hrel).
    apply lookup_replicate in Hits as [-> _].
    split; [symmetry; eapply Forall2_length; exact Hrel |].
    apply Forall2_same_length_lookup. split; [eapply Forall2_length; exact Hrel |].
    intros j x y Hx Hy.
    pose proof (Forall2_lookup_lr _ _ _ _ _ _ Hrel Hx Hy) as Hxy.
    simpl in Hxy.
    destruct (first_with_elem key items x) as [x0 Hx0];
      [by eapply list_elem_of_lookup_2 |].
    rewrite (first_with_app_Some key _ _ _ _ Hx0) in Hxy.
    simpl in Hxy. exists x0. split; [exact Hx0 | congruence].
Qed.

End MemoizeProperties.

Lemma memoize_once_per_key_witness :
  let run := Enumerable.memoize_traversals (fun n : Z => n) (fun n => n * n)
               None Enumerable.memo_init (replicate 2 [1; 2; 3; 1; 2; 3]) in
  length (Enumerable.invoked (snd run)) = 3%nat /\
  fst run = [[1; 4; 9; 1; 4; 9]; [1; 4; 9; 1; 4; 9]].
Proof.
  split; [| vm_compute; reflexivity].
  apply (proj1 (memoize_once_per_key (fun n : Z => n) (fun n => n * n) None
                  [1; 2; 3; 1; 2; 3] 2 ltac:(lia))).
Defined.

(** *** Asynchronous memoization under interleaving *)

Section AsyncProperties.
Import Enumerable.
Context {T S K : Type} `{Countable K}.
Variable stringify : T -> K.
Variable fn : T -> S.
Variable keySelector : option (T -> K).

Notation key := (memo_key stringify keySelector).
Notation inv := (Invariant.async_inv (S := S) key).

Lemma elem_of_list_insert_inv {A : Type} (l : list A) (i : nat) (x y : A) :
  y ∈ <[i := x]> l -> y = x \/ y ∈ l.
Proof.
  intros Hin. apply list_elem_of_lookup in Hin as [j Hj].
  apply list_lookup_insert_Some in Hj as [(_ & -> & _) | [_ Hj]].
  - by left.
  - right. by eapply list_elem_of_lookup_2.
Qed.

Lemma async_inv_init (inputs : list (list T)) : inv (async_init inputs).
Proof.
  unfold Invariant.async_inv, async_init. simpl. repeat split.
  - intros k p Hk. by rewrite lookup_empty in Hk.
  - intros p item Hp. by rewrite lookup_nil in Hp.
  - intros t k p Ht Hr. apply list_elem_of_fmap in Ht as (items & -> & _).
    simpl in Hr. by apply not_elem_of_nil in Hr.
  - intros t p Ht Ha. apply list_elem_of_fmap in Ht as (items & -> & _).
    discriminate.
Qed.

(** Every event the scheduler can pick keeps the invariant. *)
Lemma step_inv (ev : event) (st st' : async_memo) :
  inv st -> step stringify fn keySelector ev st = Some st' -> inv st'.
Proof.
  intros (Hcache & Hinvoked & Hreceived & Hawait).
  destruct ev as [t | p | t]; simpl.
  - destruct (traversals st !! t) as [[ups aw rcv out]|] eqn:Ht;
      [| discriminate].
    destruct ups as [|item rest]; [discriminate |].
    destruct aw as [|]; [discriminate |].
    assert (Hin : mkTraversal (item :: rest) None rcv out ∈ traversals st)
      by (by eapply list_elem_of_lookup_2).
    unfold memoizeAsync_item.
    destruct (async_cache st !! key item) as [p|] eqn:Hc; simpl;
      intros [= <-]; unfold Invariant.async_inv; simpl.
    + split; [exact Hcache |]. split; [exact Hinvoked |]. split.
      * intros t' k q Ht' Hr.
        apply elem_of_list_insert_inv in Ht' as [-> | Ht'];
          [| by eapply Hreceived].
        simpl in Hr. apply elem_of_app in Hr as [Hr | Hr].
        -- by eapply (Hreceived _ _ _ Hin).
        -- apply list_elem_of_singleton in Hr. by inversion Hr; subst.
      * intros t' q Ht' Ha.
        apply elem_of_list_insert_inv in Ht' as [-> | Ht'];
          [| by eapply Hawait].
        simpl in Ha. inversion Ha; subst. eauto.
    + assert (Hfresh : forall k q, async_cache st !! k = Some q ->
                k <> key item /\ (q < length (async_invoked st))%nat).
      { intros k q Hk. split; [congruence |].
        destruct (Hcache _ _ Hk) as (x & Hx & _).
        by eapply lookup_lt_Some. }
      split; [| split; [| split]].
      * intros k q Hk. destruct (decide (key item = k)) as [<- | Hne].
        -- rewrite lookup_insert_eq in Hk. inversion Hk; subst.
           exists item. split; [| done].
           rewrite lookup_app_r, Nat.sub_diag by lia. reflexivity.
        -- rewrite lookup_insert_ne in Hk by done.
           destruct (Hcache _ _ Hk) as (x & Hx & Hkx).
           exists x. split; [| done]. by apply lookup_app_l_Some.
      * intros q x Hq.
        destruct (decide (q < length (async_invoked st))%nat) as [Hlt | Hge].
        -- rewrite lookup_app_l in Hq by done.
           pose proof (Hinvoked _ _ Hq) as Hk.
           destruct (Hfresh _ _ Hk) as [Hne _].
           by rewrite lookup_insert_ne.
        -- rewrite lookup_app_r in Hq by lia.
           destruct (q - length (async_invoked st))%nat as [|d] eqn:Hd;
             [| by destruct d].
           simpl in Hq. inversion Hq; subst.
           rewrite lookup_insert_eq. f_equal. lia.
      * intros t' k q Ht' Hr.
        apply elem_of_list_insert_inv in Ht' as [-> | Ht'].
        -- simpl in Hr. apply elem_of_app in Hr as [Hr | Hr].
           ++ pose proof (Hreceived _ _ _ Hin Hr) as Hk.
              destruct (Hfresh _ _ Hk) as [Hne _].
              by rewrite lookup_insert_ne.
           ++ apply list_elem_of_singleton in Hr. inversion Hr; subst.
              apply lookup_insert_eq.
        -- pose proof (Hreceived _ _ _ Ht' Hr) as Hk.
           destruct (Hfresh _ _ Hk) as [Hne _].
           by rewrite lookup_insert_ne.
      * intros t' q Ht' Ha.
        apply elem_of_list_insert_inv in Ht' as [-> | Ht'].
        -- simpl in Ha. inversion Ha; subst. exists (key item).
           apply lookup_insert_eq.
        -- destruct (Hawait _ _ Ht' Ha) as [k Hk].
           destruct (Hfresh _ _ Hk) as [Hne _].
           exists k. by rewrite lookup_insert_ne.
  - destruct (bool_decide (p < length (async_invoked st))%nat);
      [| discriminate].
    intros [= <-]. unfold Invariant.async_inv. simpl. auto.
  - destruct (traversals st !! t) as [[ups aw rcv out]|] eqn:Ht;
      [| discriminate].
    destruct aw as [p|]; [| discriminate].
    destruct (async_invoked st !! p) as [arg|]; [| discriminate].
    destruct (bool_decide (p ∈ settled st)); [| discriminate].
    assert (Hin : mkTraversal ups (Some p) rcv out ∈ traversals st)
      by (by eapply list_elem_of_lookup_2).
    intros [= <-]. unfold Invariant.async_inv. simpl.
    split; [exact Hcache |]. split; [exact Hinvoked |]. split.
    + intros t' k q Ht' Hr.
      apply elem_of_list_insert_inv in Ht' as [-> | Ht'];
        [| by eapply Hreceived].
      by eapply (Hreceived _ _ _ Hin).
    + intros t' q Ht' Ha.
      apply elem_of_list_insert_inv in Ht' as [-> | Ht'];
        [discriminate | by eapply Hawait].
Qed.

Lemma run_inv (schedule : list event) :
  forall st st',
    inv st -> run stringify fn keySelector schedule st = Some st' -> inv st'.
Proof.
  induction schedule as [|ev later IH]; intros st st' Hinv; simpl.
  - by intros [= <-].
  - destruct (step stringify fn keySelector ev st) as [st1|] eqn:Hstep;
      [| discriminate].
    apply IH. by eapply step_inv.
Qed.

(** C1.  Under any interleaving of any number of traversals of one
    asynchronously memoized sequence: a Promise is in the cache from the
    round that created it, before any traversal awaits it; every round
    for a key yields the Promise the cache holds for that key, so all
    rounds for one key, in whatever traversal and whether or not the
    Promise has resolved, yield the same Promise; and [fn] is invoked at
    most once per distinct key. *)
Theorem memoizeAsync_single_flight (inputs : list (list T))
  (schedule : list event) (st : async_memo) :
  run stringify fn keySelector schedule (async_init inputs) = Some st ->
  NoDup (key <$> async_invoked st) /\
  (forall t p, t ∈ traversals st -> awaiting t = Some p ->
     exists k, async_cache st !! k = Some p) /\
  (forall t k p, t ∈ traversals st -> (k, p) ∈ received t ->
     async_cache st !! k = Some p) /\
  (forall t1 t2 k p1 p2,
     t1 ∈ traversals st -> t2 ∈ traversals st ->
     (k, p1) ∈ received t1 -> (k, p2) ∈ received t2 -> p1 = p2).
Proof.
  intros Hrun.
  destruct (run_inv schedule _ _ (async_inv_init inputs) Hrun)
    as (Hcache & Hinvoked & Hreceived & Hawait).
  split; [| split; [exact Hawait | split; [exact Hreceived |]]].
  - apply NoDup_alt. intros i j k Hi Hj.
    apply list_lookup_fmap_Some in Hi as (x & -> & Hx).
    apply list_lookup_fmap_Some in Hj as (y & Hxy & Hy).
    apply Hinvoked in Hx, Hy. rewrite Hxy in Hx. congruence.
  - intros t1 t2 k p1 p2 Ht1 Ht2 Hr1 Hr2.
    pose proof (Hreceived _ _ _ Ht1 Hr1).
    pose proof (Hreceived _ _ _ Ht2 Hr2). congruence.
Qed.

End AsyncProperties.

(** Two traversals ask for the same key before the Promise resolves: one
    invocation, and both are handed its value. *)
Lemma memoizeAsync_single_flight_witness :
  let schedule := [Enumerable.Pull 0; Enumerable.Pull 1; Enumerable.Settle 0;
                   Enumerable.Resume 0; Enumerable.Resume 1] in
  let final := Enumerable.run (fun n : Z => n) (fun n => n * n) None schedule
                 (Enumerable.async_init [[7]; [7]]) in
  let st := default (Enumerable.async_init [[7]; [7]]) final in
  (final <> None /\
   Enumerable.async_invoked st = [7] /\
   Enumerable.delivered <$> Enumerable.traversals st = [[49]; [49]]) /\
  NoDup ((fun n : Z => n) <$> Enumerable.async_invoked st).
Proof.
  intros schedule final st.
  split; [split; [discriminate | split; vm_compute; reflexivity] |].
  apply (memoizeAsync_single_flight (fun n : Z => n) (fun n => n * n) None
           [[7]; [7]] schedule st).
  vm_compute. reflexivity.
Defined.

(** *** Ordering *)

Section ListFacts.
Context {A : Type}.

Lemma filter_length_lt (p : A -> bool) (l : list A) (x : A) :
  x ∈ l -> p x = false -> (length (List.filter p l) < length l)%nat.
Proof.
  induction l as [|y l IH]; intros Hin Hp; [by apply not_elem_of_nil in Hin |].
  simpl. apply elem_of_cons in Hin as [<- | Hin].
  - rewrite Hp. pose proof (filter_length_le p l). lia.
  - specialize (IH Hin Hp). destruct (p y); simpl; lia.
Qed.

Lemma filter_none (p : A -> bool) (l : list A) :
  (forall x, x ∈ l -> p x = false) -> List.filter p l = [].
Proof.
  induction l as [|y l IH]; intros Hp; [reflexivity |]. simpl.
  rewrite (Hp y) by left. apply IH. intros x Hx. apply Hp. by right.
Qed.

Lemma filter_agree (p q : A -> bool) (l : list A) :
  (forall x, x ∈ l -> p x = q x) -> List.filter p l = List.filter q l.
Proof.
  intros Hpq. apply filter_ext_in. intros x Hx. apply Hpq.
  by apply list_elem_of_In.
Qed.

(** Three filters that split every element of [l] into exactly one
    bucket rearrange [l]. *)
Lemma three_way_Permutation (p1 p2 p3 : A -> bool) (l : list A) :
  (forall x, x ∈ l ->
     (p1 x, p2 x, p3 x) = (true, false, false) \/
     (p1 x, p2 x, p3 x) = (false, true, false) \/
     (p1 x, p2 x, p3 x) = (false, false, true)) ->
  l ≡ₚ List.filter p1 l ++ List.filter p2 l ++ List.filter p3 l.
Proof.
  induction l as [|y l IH]; intros Hsplit; [reflexivity |].
  specialize (IH (fun x Hx => Hsplit x (list_elem_of_further _ _ _ Hx))).
  simpl.
  destruct (Hsplit y (list_elem_of_here _ _)) as [Hy | [Hy | Hy]];
    injection Hy as H1 H2 H3; rewrite H1, H2, H3; simpl.
  - by constructor.
  - by apply Permutation_cons_app.
  - rewrite app_assoc. apply Permutation_cons_app. by rewrite <- app_assoc.
Qed.

Lemma StronglySorted_app_intro (R : A -> A -> Prop) (l1 l2 : list A) :
  StronglySorted R l1 -> StronglySorted R l2 ->
  (forall x y, x ∈ l1 -> y ∈ l2 -> R x y) ->
  StronglySorted R (l1 ++ l2).
Proof.
  induction l1 as [|x l1 IH]; intros H1 H2 Hcross; [exact H2 |].
  inversion H1 as [|? ? Hs Hall]; subst. simpl. constructor.
  - apply IH; [done | done |]. intros a b Ha Hb. apply Hcross; [by right | done].
  - apply List.Forall_app. split; [exact Hall |].
    apply List.Forall_forall. intros b Hb.
    apply Hcross; [by left | by apply list_elem_of_In].
Qed.

Lemma StronglySorted_all_related (R : A -> A -> Prop) (l : list A) :
  (forall x y, x ∈ l -> y ∈ l -> R x y) -> StronglySorted R l.
Proof.
  induction l as [|x l IH]; intros Hall; constructor.
  - apply IH. intros a b Ha Hb. apply Hall; by right.
  - apply List.Forall_forall. intros b Hb.
    apply Hall; [by left | right; by apply list_elem_of_In].
Qed.

End ListFacts.

Section OrderingProperties.
Import Enumerable.
Context {T K : Type}.
Variable selector : T -> K.

Section OneDirection.
Context (C : Compare K) (ok : K -> Prop).
Hypothesis Htot : Spec.totally_ordered (H := C) ok.

(** Two comparable keys are in exactly one of the three relations. *)
Lemma trichotomy (a b : K) :
  ok a -> ok b ->
  (lt a b, seq a b, gt a b) = (true, false, false) \/
  (lt a b, seq a b, gt a b) = (false, true, false) \/
  (lt a b, seq a b, gt a b) = (false, false, true).
Proof.
  intros Ha Hb. rewrite (Spec.gt_lt ok Htot a b Ha Hb).
  destruct (seq a b) eqn:Hseq.
  - apply (Spec.seq_eq ok Htot a b Ha Hb) in Hseq. subst b.
    rewrite lt_irrefl. auto.
  - assert (Hne : a <> b).
    { intros ->. pose proof (proj2 (Spec.seq_eq ok Htot b b Hb Hb) eq_refl).
      congruence. }
    assert (Hasym : forall x y, ok x -> ok y ->
               lt x y = true -> lt y x = false).
    { intros x y Hx Hy Hxy. destruct (lt y x) eqn:Hyx; [| done].
      pose proof (Spec.lt_trans ok Htot x y x Hx Hy Hx Hxy Hyx) as Hxx.
      rewrite lt_irrefl in Hxx. discriminate. }
    destruct (Spec.lt_total ok Htot a b Ha Hb Hne) as [Hlt | Hlt].
    + rewrite Hlt, (Hasym a b) by done. auto.
    + rewrite Hlt, (Hasym b a) by done. auto.
Qed.

Lemma seq_refl (a : K) : ok a -> seq a a = true.
Proof. intros Ha. by apply (Spec.seq_eq ok Htot a a Ha Ha). Qed.

Notation sorted_by_key :=
  (StronglySorted (fun x y => Spec.non_decreasing (H := C)
                                (selector x) (selector y))).
Notation with_key k := (List.filter (fun x => seq (selector x) k)).

(** With fuel above the length, the recursion of [orderBy] returns; its
    result rearranges the array, is sorted, and keeps the elements of
    each key in their order. *)
Lemma orderBy_rec_spec (fuel : nat) :
  forall arr : list T,
    (length arr < fuel)%nat ->
    (forall x, x ∈ arr -> ok (selector x)) ->
    exists out,
      orderBy_rec (H := C) selector fuel arr = Some out /\
      arr ≡ₚ out /\
      sorted_by_key out /\
      (forall k, ok k -> with_key k out = with_key k arr).
Proof.
  induction fuel as [|fuel IH]; intros arr Hlen Hok; [lia |].
  simpl. destruct (Nat.leb_spec (length arr) 1) as [Hle | Hgt].
  { exists arr. split; [reflexivity |]. split; [reflexivity |].
    split; [| auto].
    destruct arr as [|x [|y arr]]; simpl in Hle; try lia; repeat constructor. }
  destruct (last arr) as [final|] eqn:Hlast.
  2: { apply last_None in Hlast. subst arr. simpl in Hgt. lia. }
  apply last_Some_elem_of in Hlast as Hfinal.
  set (pivot := selector final).
  assert (Hpivot : ok pivot) by (by apply Hok).
  set (left := List.filter (fun x => lt (selector x) pivot) arr).
  set (equal := List.filter (fun x => seq (selector x) pivot) arr).
  set (right := List.filter (fun x => gt (selector x) pivot) arr).
  assert (Hleft : forall x, x ∈ left <-> x ∈ arr /\ lt (selector x) pivot = true).
  { intros x. unfold left. by rewrite !list_elem_of_In, filter_In. }
  assert (Hequal : forall x, x ∈ equal <-> x ∈ arr /\ selector x = pivot).
  { intros x. unfold equal. rewrite !list_elem_of_In, filter_In.
    rewrite <- !list_elem_of_In. split; intros [Hx Hs]; (split; [done |]).
    - by apply (Spec.seq_eq ok Htot _ _ (Hok x Hx) Hpivot).
    - by apply (Spec.seq_eq ok Htot _ _ (Hok x Hx) Hpivot). }
  assert (Hright : forall x, x ∈ right <-> x ∈ arr /\ lt pivot (selector x) = true).
  { intros x. unfold right. rewrite !list_elem_of_In, filter_In.
    rewrite <- !list_elem_of_In. split; intros [Hx Hg]; (split; [done |]).
    - by rewrite <- (Spec.gt_lt ok Htot _ _ (Hok x Hx) Hpivot).
    - by rewrite (Spec.gt_lt ok Htot _ _ (Hok x Hx) Hpivot). }
  destruct (IH left) as (before & -> & Hpb & Hsb & Hkb).
  { pose proof (filter_length_lt (fun x => lt (selector x) pivot) arr final
                  Hfinal (lt_irrefl pivot)). fold left in H. lia. }
  { intros x Hx. apply Hok. by apply Hleft. }
  destruct (IH right) as (after & -> & Hpa & Hsa & Hka).
  { pose proof (filter_length_lt (fun x => gt (selector x) pivot) arr final
                  Hfinal (gt_irrefl pivot)). fold right in H. lia. }
  { intros x Hx. apply Hok. by apply Hright. }
  exists (before ++ equal ++ after). split; [reflexivity |].
  assert (Hbefore : forall x, x ∈ before ->
             ok (selector x) /\ lt (selector x) pivot = true).
  { intros x Hx. rewrite <- Hpb in Hx. apply Hleft in Hx as [Hx Hlt].
    split; [by apply Hok | done]. }
  assert (Hafter : forall x, x ∈ after ->
             ok (selector x) /\ lt pivot (selector x) = true).
  { intros x Hx. rewrite <- Hpa in Hx. apply Hright in Hx as [Hx Hlt].
    split; [by apply Hok | done]. }
  split; [| split].
  - rewrite <- Hpb, <- Hpa. apply three_way_Permutation.
    intros x Hx. apply trichotomy; [by apply Hok | done].
  - unfold Spec.non_decreasing.
    apply StronglySorted_app_intro; [done | |].
    + apply StronglySorted_app_intro; [| done |].
      * apply StronglySorted_all_related. intros x y Hx Hy.
        apply Hequal in Hx as [_ ->]. apply Hequal in Hy as [_ ->].
        rewrite seq_refl by done. apply orb_true_r.
      * intros x y Hx Hy. apply Hequal in Hx as [_ ->].
        apply Hafter in Hy as [_ ->]. reflexivity.
    + intros x y Hx Hy. apply Hbefore in Hx as [Hokx Hx].
      apply elem_of_app in Hy as [Hy | Hy].
      * apply Hequal in Hy as [_ ->]. by rewrite Hx.
      * apply Hafter in Hy as [Hoky Hy].
        by rewrite (Spec.lt_trans ok Htot _ _ _ Hokx Hpivot Hoky Hx Hy).
  - intros k Hk. rewrite !List.filter_app, Hkb, Hka by done.
    unfold left, equal, right. rewrite !filter_filter_and.
    assert (Hkey : forall x, x ∈ arr -> seq (selector x) k = true ->
               selector x = k).
    { intros x Hx. by apply (Spec.seq_eq ok Htot _ _ (Hok x Hx) Hk). }
    destruct (trichotomy k pivot Hk Hpivot) as [Htri | [Htri | Htri]];
      injection Htri as Hklt Hkseq Hkgt.
    + rewrite (filter_agree _ (fun x => seq (selector x) k) arr).
      2: { intros x Hx. destruct (seq (selector x) k) eqn:Hxk;
             [| apply andb_false_r].
           rewrite (Hkey x Hx Hxk), Hklt. reflexivity. }
      rewrite (filter_none (fun x => seq (selector x) pivot && _) arr).
      2: { intros x Hx. destruct (seq (selector x) k) eqn:Hxk;
             [| apply andb_false_r].
           rewrite (Hkey x Hx Hxk), Hkseq. reflexivity. }
      rewrite (filter_none (fun x => gt (selector x) pivot && _) arr).
      2: { intros x Hx. destruct (seq (selector x) k) eqn:Hxk;
             [| apply andb_false_r].
           rewrite (Hkey x Hx Hxk), Hkgt. reflexivity. }
      by rewrite app_nil_r.
    + rewrite (filter_none (fun x => lt (selector x) pivot && _) arr).
      2: { intros x Hx. destruct (seq (selector x) k) eqn:Hxk;
             [| apply andb_false_r].
           rewrite (Hkey x Hx Hxk), Hklt. reflexivity. }
      rewrite (filter_agree (fun x => seq (selector x) pivot && _)
                            (fun x => seq (selector x) k) arr).
      2: { intros x Hx. destruct (seq (selector x) k) eqn:Hxk;
             [| apply andb_false_r].
           rewrite (Hkey x Hx Hxk), Hkseq. reflexivity. }
      rewrite (filter_none (fun x => gt (selector x) pivot && _) arr).
      2: { intros x Hx. destruct (seq (selector x) k) eqn:Hxk;
             [| apply andb_false_r].
           rewrite (Hkey x Hx Hxk), Hkgt. reflexivity. }
      by rewrite app_nil_r.
    + rewrite (filter_none (fun x => lt (selector x) pivot && _) arr).
      2: { intros x Hx. destruct (seq (selector x) k) eqn:Hxk;
             [| apply andb_false_r].
           rewrite (Hkey x Hx Hxk), Hklt. reflexivity. }
      rewrite (filter_none (fun x => seq (selector x) pivot && _) arr).
      2: { intros x Hx. destruct (seq (selector x) k) eqn:Hxk;
             [| apply andb_false_r].
           rewrite (Hkey x Hx Hxk), Hkseq. reflexivity. }
      rewrite (filter_agree (fun x => gt (selector x) pivot && _)
                            (fun x => seq (selector x) k) arr).
      2: { intros x Hx. destruct (seq (selector x) k) eqn:Hxk;
             [| apply andb_false_r].
           rewrite (Hkey x Hx Hxk), Hkgt. reflexivity. }
      reflexivity.
Qed.

End OneDirection.

(** [orderByDescending] is [orderBy] with [<] and [>] exchanged. *)
Lemma orderByDescending_rec_flipped (C : Compare K) (fuel : nat) :
  forall arr : list T,
    orderByDescending_rec (H := C) selector fuel arr
    = orderBy_rec (H := Spec.flipped (H := C)) selector fuel arr.
Proof.
  induction fuel as [|fuel IH]; intros arr; simpl; [reflexivity |].
  destruct (length arr <=? 1)%nat; [reflexivity |].
  destruct (last arr); [| reflexivity].
  rewrite !IH. reflexivity.
Qed.

Lemma flipped_totally_ordered (C : Compare K) (ok : K -> Prop) :
  Spec.totally_ordered (H := C) ok ->
  Spec.totally_ordered (H := Spec.flipped (H := C)) ok.
Proof.
  intros Htot. constructor; simpl.
  - apply (Spec.seq_eq ok Htot).
  - intros a b Ha Hb. symmetry. by apply (Spec.gt_lt ok Htot).
  - intros a b c Ha Hb Hc.
    rewrite (Spec.gt_lt ok Htot a b), (Spec.gt_lt ok Htot b c),
      (Spec.gt_lt ok Htot a c) by done.
    intros Hba Hcb. by apply (Spec.lt_trans ok Htot c b a).
  - intros a b Ha Hb Hne.
    rewrite (Spec.gt_lt ok Htot a b), (Spec.gt_lt ok Htot b a) by done.
    destruct (Spec.lt_total ok Htot a b Ha Hb Hne); auto.
Qed.

(** C3 (amended).  When the derived keys of the input are totally ordered
    by [<], [===] and [>] (as numbers other than [NaN] are),
    [orderBy] (respectively [orderByDescending]) returns a permutation of
    the input in which the keys of adjacent elements are non-decreasing
    (respectively non-increasing) and the elements of each key keep
    their relative input order. *)
Theorem orderBy_sorts_comparable_keys `{C : Compare K} (ok : K -> Prop)
  (arr : list T) :
  Spec.totally_ordered ok ->
  (forall x, x ∈ arr -> ok (selector x)) ->
  (exists out,
     orderBy selector arr = Some out /\
     arr ≡ₚ out /\
     Sorted (fun x y => Spec.non_decreasing (selector x) (selector y)) out /\
     (forall k, ok k ->
        List.filter (fun x => seq (selector x) k) out
        = List.filter (fun x => seq (selector x) k) arr)) /\
  (exists out,
     orderByDescending selector arr = Some out /\
     arr ≡ₚ out /\
     Sorted (fun x y => Spec.non_increasing (selector x) (selector y)) out /\
     (forall k, ok k ->
        List.filter (fun x => seq (selector x) k) out
        = List.filter (fun x => seq (selector x) k) arr)).
Proof.
  intros Htot Hok. split.
  - destruct (orderBy_rec_spec C ok Htot (Datatypes.S (length arr)) arr)
      as (out & Hout & Hperm & Hsorted & Hstable); [lia | done |].
    exists out. split; [exact Hout |]. split; [exact Hperm |].
    split; [by apply StronglySorted_Sorted | exact Hstable].
  - destruct (orderBy_rec_spec (Spec.flipped (H := C)) ok
                (flipped_totally_ordered C ok Htot)
                (Datatypes.S (length arr)) arr)
      as (out & Hout & Hperm & Hsorted & Hstable); [lia | done |].
    exists out. unfold orderByDescending.
    rewrite orderByDescending_rec_flipped.
    split; [exact Hout |]. split; [exact Hperm |].
    split; [by apply StronglySorted_Sorted | exact Hstable].
Qed.

End OrderingProperties.

Lemma Z_totally_ordered : Spec.totally_ordered (K := Z) (fun _ => True).
Proof.
  constructor; simpl.
  - intros a b _ _. apply Z.eqb_eq.
  - intros a b _ _. apply Z.gtb_ltb.
  - intros a b c _ _ _. rewrite !Z.ltb_lt. lia.
  - intros a b _ _. rewrite !Z.ltb_lt. lia.
Qed.

(** Numbers other than [NaN] are totally ordered. *)
Lemma number_totally_ordered :
  Spec.totally_ordered (K := number) (fun k => k <> NaN).
Proof.
  constructor; simpl.
  - intros [a|] [b|] Ha Hb; try done. simpl.
    rewrite Z.eqb_eq. split; [by intros -> | by intros [= ->]].
  - intros [a|] [b|] Ha Hb; try done. simpl. apply Z.gtb_ltb.
  - intros [a|] [b|] [c|] Ha Hb Hc; try done. simpl.
    rewrite !Z.ltb_lt. lia.
  - intros [a|] [b|] Ha Hb Hne; try done. simpl.
    rewrite !Z.ltb_lt. destruct (Z.lt_trichotomy a b) as [|[->|]]; auto.
    done.
Qed.

Lemma orderBy_sorts_comparable_keys_witness :
  exists out,
    Enumerable.orderBy (fun x : Z => x) [3; 1; 4; 2] = Some out /\
    [3; 1; 4; 2] ≡ₚ out /\
    Sorted (fun x y => Spec.non_decreasing x y) out /\
    (forall k, True ->
       List.filter (fun x => seq x k) out
       = List.filter (fun x => seq x k) [3; 1; 4; 2]).
Proof.
  apply (proj1 (orderBy_sorts_comparable_keys (fun x : Z => x) (fun _ => True)
                  [3; 1; 4; 2] Z_totally_ordered (fun _ _ => I))).
Defined.

(** C3 as stated fails: a key that compares false with every key, such as
    [NaN], falls into none of the three buckets, and the elements that
    meet it as pivot, or carry it, are lost. *)
Lemma orderBy_loses_incomparable_keys :
  Enumerable.orderBy (fun x : number => x) [Num 1; NaN] = Some [] /\
  Enumerable.orderByDescending (fun x : number => x) [Num 1; NaN] = Some [] /\
  ~ ([Num 1; NaN] ≡ₚ []) /\
  Enumerable.orderBy (fun x : number => x) [NaN; Num 2; Num 1]
  = Some [Num 1; Num 2].
Proof.
  split; [reflexivity |]. split; [reflexivity |].
  split; [| reflexivity].
  intros Hperm. apply Permutation_length in Hperm. discriminate.
Qed.

(** The scenarios of the test suite. *)
Example orderBy_scenario :
  Enumerable.orderBy (fun x : Z => x) [3; 1; 4; 2] = Some [1; 2; 3; 4] /\
  Enumerable.orderByDescending (fun x : Z => x) [3; 1; 4; 2]
  = Some [4; 3; 2; 1].
Proof. split; reflexivity. Qed.

Example set_scenarios :
  Enumerable.distinct id [1; 2; 2; 3; 3; 3] = [1; 2; 3] /\
  Enumerable.union id [1; 2; 3] [3; 4; 5] None = [1; 2; 3; 4; 5] /\
  Enumerable.intersect id [1; 2; 3; 4] [3; 4; 5; 6] None = [3; 4].
Proof. repeat split; vm_compute; reflexivity. Qed.

(** ** Further properties of the operators *)

(** *** Aggregation terminals on sequences with elements *)

Section TerminalProperties.
Import Enumerable.
Context {T : Type} `{C : Compare T}.
Variable Number : T -> float.

Lemma count_loop_acc (predicate : option (T -> bool)) (items : list T) :
  forall acc,
    fold_left (fun i item =>
                 match predicate with
                 | Some p => if negb (p item) then i else i + 1
                 | None => i + 1
                 end) items acc
    = acc + Z.of_nat (length (match predicate with
                              | Some p => List.filter p items
                              | None => items
                              end)).
Proof.
  induction items as [|item rest IH]; intros acc; simpl; [destruct predicate; simpl; lia |].
  rewrite IH. destruct predicate as [p|]; simpl; [| lia].
  destruct (p item); simpl; lia.
Qed.

(** X1.  [count(predicate)] is the number of elements the predicate
    accepts, and [count()] the number of elements. *)
Theorem count_counts_accepted (p : T -> bool) (items : list T) :
  count (Some p) (from items) = inr (Z.of_nat (length (List.filter p items))) /\
  count None (from items) = inr (Z.of_nat (length items)).
Proof.
  assert (Hp : count_loop (Some p) items
               = Z.of_nat (length (List.filter p items)))
    by (etransitivity; [exact (count_loop_acc (Some p) items 0) | simpl; lia]).
  assert (Hn : count_loop None items = Z.of_nat (length items))
    by (etransitivity; [exact (count_loop_acc None items 0) | simpl; lia]).
  unfold count, for_of, iterator.
  cbn [from sync_source iterable sym_iterator].
  by rewrite Hp, Hn.
Qed.

Lemma sum_loop_exact (selector : option (T -> float)) (value : T -> Z)
  (items : list T) :
  (forall item, match selector with
                | Some sel => sel item
                | None => Number item
                end = of_Z (value item)) ->
  forall acc,
    (forall k, Z.abs (acc + Spec.total (firstn k (value <$> items))) <= 2 ^ 53) ->
    fold_left (fun i item =>
                 match selector with
                 | Some sel => float_add i (sel item)
                 | None => float_add i (Number item)
                 end) items (of_Z acc)
    = of_Z (acc + Spec.total (value <$> items)).
Proof.
  intros Hval. induction items as [|item rest IH]; intros acc Hsafe.
  - simpl. by rewrite Z.add_0_r.
  - rewrite fmap_cons in *.
    change (Spec.total (value item :: (value <$> rest)))
      with (value item + Spec.total (value <$> rest)).
    cbn [fold_left].
    assert (Hstep : match selector with
                    | Some sel => float_add (of_Z acc) (sel item)
                    | None => float_add (of_Z acc) (Number item)
                    end = of_Z (acc + value item)).
    { specialize (Hval item). specialize (Hsafe 1%nat).
      change (Z.abs (acc + (value item + 0)) <= 2 ^ 53) in Hsafe.
      destruct selector; rewrite Hval; apply float_add_safe; lia. }
    rewrite Hstep, IH.
    + f_equal. lia.
    + intros k. specialize (Hsafe (Datatypes.S k)).
      change (Z.abs (acc + (value item
                            + Spec.total (firstn k (value <$> rest))))
              <= 2 ^ 53) in Hsafe.
      lia.
Qed.

Lemma average_fold (selector : option (T -> float)) (items : list T) :
  forall s c,
    fold_left (fun '(sum, count) item =>
                 match selector with
                 | Some sel => (float_add sum (sel item), count + 1)
                 | None => (float_add sum (Number item), count + 1)
                 end) items (s, c)
    = (fold_left (fun i item =>
                    match selector with
                    | Some sel => float_add i (sel item)
                    | None => float_add i (Number item)
                    end) items s,
       c + Z.of_nat (length items)).
Proof.
  induction items as [|item rest IH]; intros s c.
  - simpl. f_equal. lia.
  - cbn [fold_left length]. destruct selector; rewrite IH; f_equal; lia.
Qed.

(** X2.  On numbers that are integers, [sum] is the exact sum as long as
    every running total is of magnitude at most [2^53]. *)
Theorem sum_of_integers_is_exact (selector : option (T -> float))
  (value : T -> Z) (items : list T) :
  (forall item, match selector with
                | Some sel => sel item
                | None => Number item
                end = of_Z (value item)) ->
  Spec.running_totals_exact (value <$> items) ->
  sum Number selector (from items) = inr (of_Z (Spec.total (value <$> items))).
Proof.
  intros Hval Hsafe. unfold sum, for_of, iterator.
  cbn [from sync_source iterable sym_iterator]. f_equal. unfold sum_loop.
  rewrite (sum_loop_exact selector value items Hval 0); [done |].
  intros k. apply Hsafe.
Qed.

(** X3.  On a sequence with elements whose numbers are integers with
    running totals of magnitude at most [2^53], [average] is the double
    nearest to the exact mean, and the exact mean when that is an
    integer. *)
Theorem average_of_integers_is_rounded_mean (selector : option (T -> float))
  (value : T -> Z) (items : list T) :
  (forall item, match selector with
                | Some sel => sel item
                | None => Number item
                end = of_Z (value item)) ->
  Spec.running_totals_exact (value <$> items) ->
  items <> [] ->
  average Number selector (from items)
  = inr (round (inject_Z (Spec.total (value <$> items))
                / inject_Z (Z.of_nat (length items)))) /\
  (forall mean,
     Spec.total (value <$> items) = mean * Z.of_nat (length items) ->
     average Number selector (from items) = inr (of_Z mean)).
Proof.
  intros Hval Hsafe Hne.
  assert (Hlen : 0 < Z.of_nat (length items))
    by (destruct items; simpl; [done | lia]).
  assert (Havg : average_loop Number selector items
                 = round (inject_Z (Spec.total (value <$> items))
                          / inject_Z (Z.of_nat (length items)))).
  { unfold average_loop. rewrite average_fold.
    rewrite (sum_loop_exact selector value items Hval 0)
      by (intros k; apply Hsafe).
    rewrite !Z.add_0_l.
    destruct (Z.eqb_spec (Z.of_nat (length items)) 0) as [| _]; [lia |].
    unfold float_div, of_Z.
    destruct (Qeq_bool (inject_Z (Z.of_nat (length items))) 0) eqn:Hz;
      [| reflexivity].
    apply Qeq_bool_iff in Hz. unfold Qeq in Hz. simpl in Hz. lia. }
  unfold average, for_of, iterator.
  cbn [from sync_source iterable sym_iterator]. rewrite Havg.
  split; [reflexivity |].
  intros mean Hmean. f_equal. rewrite Hmean.
  rewrite (round_comp _ (inject_Z mean)).
  - apply round_safe_integer.
    specialize (Hsafe (length (value <$> items))).
    rewrite firstn_all, Hmean in Hsafe. nia.
  - rewrite inject_Z_mult. field. unfold Qeq. simpl. lia.
Qed.

(** X7.  [first(predicate)] is the first element the predicate accepts,
    [first()] the head of the sequence; so [first(predicate)] is
    [first()] of the filtered sequence. *)
Theorem first_finds_first (p : T -> bool) (items : list T) :
  first (Some p) (from items) = inr (List.find p items) /\
  first None (from items) = inr (head items) /\
  first (Some p) (from items) = first None (from (List.filter p items)).
Proof.
  unfold first, for_of. simpl.
  assert (Hfind : first_loop (Some p) items = List.find p items).
  { induction items as [|item rest IH]; simpl; [reflexivity |].
    destruct (p item); [reflexivity | exact IH]. }
  split; [by rewrite Hfind |]. split; [by destruct items |].
  f_equal. rewrite Hfind. clear Hfind.
  induction items as [|item rest IH]; simpl; [reflexivity |].
  destruct (p item); [reflexivity | exact IH].
Qed.

(** X8.  [all(p)] holds when every element passes, [any(p)] when some
    element passes, [any()] when there is an element; [all(p)] is the
    negation of [any] of the negated predicate. *)
Theorem all_any_duality (p : T -> bool) (items : list T) :
  all p (from items) = inr (forallb p items) /\
  any (Some p) (from items) = inr (existsb p items) /\
  any None (from items) = inr (negb (bool_decide (items = []))) /\
  all_loop p items = negb (any_loop (Some (fun x => negb (p x))) items).
Proof.
  unfold all, any, for_of. simpl. repeat split.
  - f_equal. induction items as [|item rest IH]; simpl; [reflexivity |].
    destruct (p item); [exact IH | reflexivity].
  - f_equal. induction items as [|item rest IH]; simpl; [reflexivity |].
    destruct (p item); [reflexivity | exact IH].
  - by destruct items.
  - induction items as [|item rest IH]; simpl; [reflexivity |].
    destruct (p item); [exact IH | reflexivity].
Qed.

End TerminalProperties.

Lemma sum_of_integers_is_exact_witness :
  Enumerable.sum of_Z None (Enumerable.from [9007199254740990; 1; 1])
  = inr (of_Z 9007199254740992).
Proof.
  apply (sum_of_integers_is_exact of_Z None (fun z : Z => z)
           [9007199254740990; 1; 1]).
  - reflexivity.
  - intros k. do 4 (destruct k as [|k]; [vm_compute; discriminate |]).
    vm_compute. discriminate.
Defined.

Lemma average_of_integers_is_rounded_mean_witness :
  Enumerable.average of_Z None (Enumerable.from [2; 4; 6; 8]) = inr (of_Z 5).
Proof.
  apply (average_of_integers_is_rounded_mean of_Z None (fun z : Z => z)
           [2; 4; 6; 8]).
  - reflexivity.
  - intros k. do 5 (destruct k as [|k]; [vm_compute; discriminate |]).
    vm_compute. discriminate.
  - discriminate.
  - reflexivity.
Defined.

(** Past [2^53] the running total is rounded, and the order of the
    elements matters; [average] is rounded where the mean is no double. *)
Example sum_rounds_large_totals :
  Enumerable.sum_loop id None [of_Z (2 ^ 53); of_Z 1; of_Z 1] = of_Z (2 ^ 53) /\
  Enumerable.sum_loop id None [of_Z 1; of_Z 1; of_Z (2 ^ 53)]
  = of_Z (2 ^ 53 + 2) /\
  Enumerable.average_loop id None (of_Z <$> [29; 0; 0; 0; 0; 0; 0])
  = Finite (4664442471205157 # 1125899906842624).
Proof. vm_compute. repeat split. Qed.

(** *** Extremes and membership under the comparison operators *)

Section ExtremeProperties.
Import Enumerable.
Context {T : Type}.

Section Comparable.
Context (C : Compare T) (ok : T -> Prop).
Hypothesis Htot : Spec.totally_ordered (H := C) ok.

(** "Not above" is transitive on comparable elements. *)
Lemma not_gt_trans (a b c : T) :
  ok a -> ok b -> ok c ->
  gt a b = false -> gt b c = false -> gt a c = false.
Proof.
  intros Ha Hb Hc Hab Hbc.
  destruct (gt a c) eqn:Hac; [| reflexivity]. exfalso.
  rewrite (Spec.gt_lt ok Htot a c Ha Hc) in Hac.
  assert (Hirr : forall x, lt x x = true -> False)
    by (intros x Hx; rewrite lt_irrefl in Hx; discriminate).
  destruct (trichotomy C ok Htot a b Ha Hb) as [Hab' | [Hab' | Hab']];
    injection Hab' as Hlt1 Hseq1 Hgt1; [| | congruence];
  destruct (trichotomy C ok Htot b c Hb Hc) as [Hbc' | [Hbc' | Hbc']];
    injection Hbc' as Hlt2 Hseq2 Hgt2; try congruence.
  - apply (Hirr a).
    apply (Spec.lt_trans ok Htot a c a Ha Hc Ha); [| done].
    by apply (Spec.lt_trans ok Htot a b c Ha Hb Hc).
  - apply (Spec.seq_eq ok Htot b c Hb Hc) in Hseq2. subst c.
    apply (Hirr a). by apply (Spec.lt_trans ok Htot a b a Ha Hb Ha).
  - apply (Spec.seq_eq ok Htot a b Ha Hb) in Hseq1. subst b.
    apply (Hirr a). by apply (Spec.lt_trans ok Htot a c a Ha Hc Ha).
  - apply (Spec.seq_eq ok Htot a b Ha Hb) in Hseq1.
    apply (Spec.seq_eq ok Htot b c Hb Hc) in Hseq2. subst. by apply (Hirr c).
Qed.

Lemma max_fold (items : list T) :
  forall (m : T) (seen : list T),
    m ∈ seen ->
    (forall x, x ∈ seen -> ok x /\ gt x m = false) ->
    (forall x, x ∈ items -> ok x) ->
    exists m',
      fold_left (fun '(hasValue, max) item =>
                   if negb hasValue then (true, Some item)
                   else match max with
                        | Some m => if gt item m then (hasValue, Some item)
                                    else (hasValue, max)
                        | None => (hasValue, max)
                        end) items (true, Some m)
      = (true, Some m') /\
      m' ∈ seen ++ items /\
      (forall x, x ∈ seen ++ items -> gt x m' = false).
Proof.
  induction items as [|item rest IH]; intros m seen Hm Hseen Hok.
  - exists m. rewrite app_nil_r. split; [reflexivity |]. split; [done |].
    intros x Hx. by apply Hseen.
  - cbn [fold_left negb].
    assert (Hokm : ok m) by (by apply Hseen).
    assert (Hoki : ok item) by (apply Hok; left).
    destruct (gt item m) eqn:Hgt.
    + destruct (IH item (seen ++ [item])) as (m' & Hfold & Hin & Hmax).
      * apply elem_of_app. right. left.
      * intros x Hx. apply elem_of_app in Hx as [Hx | Hx].
        -- destruct (Hseen x Hx) as [Hokx Hxm]. split; [done |].
           apply (not_gt_trans x m item); try done.
           rewrite (Spec.gt_lt ok Htot m item Hokm Hoki).
           rewrite (Spec.gt_lt ok Htot item m Hoki Hokm) in Hgt.
           destruct (lt item m) eqn:Him; [| done].
           pose proof (Spec.lt_trans ok Htot m item m Hokm Hoki Hokm Hgt Him)
             as Hmm.
           rewrite lt_irrefl in Hmm. discriminate.
        -- apply list_elem_of_singleton in Hx as ->.
           split; [done | apply gt_irrefl].
      * intros x Hx. apply Hok. by right.
      * exists m'. rewrite <- app_assoc in Hin, Hmax. done.
    + destruct (IH m (seen ++ [item])) as (m' & Hfold & Hin & Hmax).
      * apply elem_of_app. by left.
      * intros x Hx. apply elem_of_app in Hx as [Hx | Hx].
        -- by apply Hseen.
        -- apply list_elem_of_singleton in Hx as ->. done.
      * intros x Hx. apply Hok. by right.
      * exists m'. rewrite <- app_assoc in Hin, Hmax. done.
Qed.

Lemma max_loop_greatest (items : list T) :
  items <> [] ->
  (forall x, x ∈ items -> ok x) ->
  exists m, max_loop (H := C) items = Some m /\ m ∈ items /\
            forall x, x ∈ items -> gt x m = false.
Proof.
  intros Hne Hok. destruct items as [|item rest]; [done |].
  destruct (max_fold rest item [item]) as (m & Hfold & Hin & Hmax).
  - left.
  - intros x Hx. apply list_elem_of_singleton in Hx as ->.
    split; [apply Hok; left | apply gt_irrefl].
  - intros x Hx. apply Hok. by right.
  - exists m. unfold max_loop. cbn [fold_left negb]. rewrite Hfold. done.
Qed.

(** When every element equals itself under [===], [contains] finds
    exactly the elements of the sequence. *)
Lemma contains_loop_elem (value : T) (items : list T) :
  ok value ->
  (forall x, x ∈ items -> ok x) ->
  contains_loop (H := C) value items = true <-> value ∈ items.
Proof.
  intros Hv. induction items as [|item rest IH]; intros Hok; simpl.
  - split; [discriminate | intros Hin; by apply not_elem_of_nil in Hin].
  - assert (Hoki : ok item) by (apply Hok; left).
    rewrite elem_of_cons. destruct (seq item value) eqn:Hseq.
    + apply (Spec.seq_eq ok Htot item value Hoki Hv) in Hseq. subst.
      split; auto.
    + rewrite IH by (intros x Hx; apply Hok; by right).
      split; [auto | intros [-> | Hin]; [| done]].
      rewrite (proj2 (Spec.seq_eq ok Htot item item Hoki Hoki) eq_refl) in Hseq.
      discriminate.
Qed.

End Comparable.

(** X4.  On a sequence with elements that the comparison operators order
    totally, [max] returns an element of the sequence that no element is
    above, and [min] one that no element is below. *)
Theorem max_min_are_extremes `{C : Compare T} (ok : T -> Prop)
  (items : list T) :
  Spec.totally_ordered ok ->
  items <> [] ->
  (forall x, x ∈ items -> ok x) ->
  (exists m, max (from items) = inr (Some m) /\ m ∈ items /\
             forall x, x ∈ items -> gt x m = false) /\
  (exists m, min (from items) = inr (Some m) /\ m ∈ items /\
             forall x, x ∈ items -> lt x m = false).
Proof.
  intros Htot Hne Hok. unfold max, min, for_of. simpl. split.
  - destruct (max_loop_greatest C ok Htot items Hne Hok) as (m & -> & Hm).
    eauto.
  - destruct (max_loop_greatest (Spec.flipped (H := C)) ok
                (flipped_totally_ordered C ok Htot) items Hne Hok)
      as (m & Hmin & Hm).
    exists m. split; [| exact Hm]. f_equal. exact Hmin.
Qed.

(** X5.  Under a total order [contains(value)] is membership. *)
Theorem contains_is_membership `{C : Compare T} (ok : T -> Prop)
  (value : T) (items : list T) :
  Spec.totally_ordered ok ->
  ok value ->
  (forall x, x ∈ items -> ok x) ->
  (contains value (from items) = inr true <-> value ∈ items) /\
  (contains value (from items) = inr false <-> value ∉ items).
Proof.
  intros Htot Hv Hok. unfold contains, for_of. simpl.
  pose proof (contains_loop_elem C ok Htot value items Hv Hok) as Hiff.
  destruct (contains_loop value items); split; split; intros Hx;
    try done; try (by apply Hiff); try (by f_equal; apply Hiff).
  - exfalso. apply Hx. by apply Hiff.
  - intros Hin. apply Hiff in Hin. discriminate.
Qed.

End ExtremeProperties.

Lemma max_min_are_extremes_witness :
  exists m, Enumerable.max (Enumerable.from [5; 2; 9; 1]) = inr (Some m) /\
            m ∈ [5; 2; 9; 1] /\
            forall x, x ∈ [5; 2; 9; 1] -> gt x m = false.
Proof.
  apply (proj1 (max_min_are_extremes (fun _ => True) [5; 2; 9; 1]
                  Z_totally_ordered ltac:(discriminate) (fun _ _ => I))).
Defined.

Lemma contains_is_membership_witness :
  Enumerable.contains 2 (Enumerable.from [1; 2; 3]) = inr true <-> 2 ∈ [1; 2; 3].
Proof.
  apply (proj1 (contains_is_membership (fun _ => True) 2 [1; 2; 3]
                  Z_totally_ordered I (fun _ _ => I))).
Defined.

(** X6.  [NaN] and the extremes: a [NaN] in first position is the result
    of [max] and of [min], whatever follows; a [NaN] further on is never
    the result; and [contains(NaN)] is false on every sequence. *)
Theorem NaN_in_extremes_and_contains (a : Z) (items : list number) :
  Enumerable.max_loop (NaN :: items) = Some NaN /\
  Enumerable.min_loop (NaN :: items) = Some NaN /\
  (exists b, Enumerable.max_loop (Num a :: items) = Some (Num b)) /\
  (exists b, Enumerable.min_loop (Num a :: items) = Some (Num b)) /\
  Enumerable.contains_loop NaN items = false.
Proof.
  unfold Enumerable.max_loop, Enumerable.min_loop. cbn [fold_left negb].
  split; [| split; [| split; [| split]]].
  - induction items as [|item rest IH]; [reflexivity |].
    cbn [fold_left negb]. destruct item; exact IH.
  - induction items as [|item rest IH]; [reflexivity |].
    cbn [fold_left negb]. destruct item; exact IH.
  - revert a. induction items as [|item rest IH]; intros a; [by exists a |].
    cbn [fold_left negb]. destruct item as [z|]; simpl; [| apply IH].
    destruct (z >? a); apply IH.
  - revert a. induction items as [|item rest IH]; intros a; [by exists a |].
    cbn [fold_left negb]. destruct item as [z|]; simpl; [| apply IH].
    destruct (z <? a); apply IH.
  - induction items as [|item rest IH]; [reflexivity |].
    simpl. destruct item; exact IH.
Qed.

(** *** Deferred stages: what they yield and what they invoke *)

Section StageProperties.
Import Enumerable.
Context {E T : Type}.

Lemma toArray_of_array (items : list T) :
  toArray (of_array (E := E) items) = items.
Proof. induction items as [|x l IH]; simpl; [done | by rewrite IH]. Qed.

Lemma invocations_of_array (items : list T) :
  invocations (of_array (E := E) items) = [].
Proof. induction items as [|x l IH]; simpl; done. Qed.

(** X9.  [select(mapper)] yields the images of the elements in order and
    invokes [mapper] once per element pulled, after the calls of the
    stages above it; two [select]s in a row yield what one [select] with
    the composed mapper yields. *)
Theorem select_maps_in_order {S U : Type} (mapper : T -> S) (next : S -> U)
  (self : Gen E T) :
  toArray (select mapper self) = mapper <$> toArray self /\
  omap (fun call => match call with inr item => Some item | inl _ => None end)
       (invocations (select mapper self)) = toArray self /\
  omap (fun call => match call with inl c => Some c | inr _ => None end)
       (invocations (select mapper self)) = invocations self /\
  toArray (select next (select mapper self))
  = toArray (select (fun x => next (mapper x)) self).
Proof.
  assert (Hto : forall (A B X : Type) (f : A -> B) (g : Gen X A),
             toArray (select f g) = f <$> toArray g).
  { intros A B X f g. induction g as [|item rest IH|call rest IH]; simpl;
      [done | by rewrite IH | done]. }
  split; [apply Hto |]. split; [| split].
  - induction self as [|item rest IH|call rest IH]; simpl;
      [done | f_equal; exact IH | exact IH].
  - induction self as [|item rest IH|call rest IH]; simpl;
      [done | exact IH | f_equal; exact IH].
  - rewrite !Hto, <- list_fmap_compose. reflexivity.
Qed.

(** X10.  [where(predicate)] yields the accepted elements in order and
    tests every element pulled exactly once. *)
Theorem where_filters_in_order (predicate : T -> bool) (self : Gen E T) :
  toArray (where_ predicate self) = List.filter predicate (toArray self) /\
  omap (fun call => match call with inr item => Some item | inl _ => None end)
       (invocations (where_ predicate self)) = toArray self.
Proof.
  split.
  - induction self as [|item rest IH|call rest IH]; simpl; [done | | done].
    destruct (predicate item); simpl; by rewrite IH.
  - induction self as [|item rest IH|call rest IH]; simpl;
      [done | f_equal; destruct (predicate item); exact IH | exact IH].
Qed.

Lemma take_toArray (n : Z) (self : Gen E T) :
  toArray (take n self) = firstn (Z.to_nat n) (toArray self).
Proof. unfold take. rewrite take_loop_toArray. do 2 f_equal. lia. Qed.

(** X11.  [take] at the edges and composed: [take(n)] with [n <= 0]
    yields nothing, with [n] at least the length it yields everything,
    and [take(m)] of [take(n)] yields what [take] of the smaller count
    yields. *)
Theorem take_edges_and_composition (n m : Z) (self : Gen E T) :
  (n <= 0 -> toArray (take n self) = []) /\
  (Z.of_nat (length (toArray self)) <= n ->
   toArray (take n self) = toArray self) /\
  toArray (take m (take n self)) = toArray (take (Z.min m n) self) /\
  length (toArray (take n self))
  = Nat.min (Z.to_nat n) (length (toArray self)).
Proof.
  rewrite !take_toArray. split; [| split; [| split]].
  - intros Hn. replace (Z.to_nat n) with O by lia. reflexivity.
  - intros Hn. apply firstn_all2. lia.
  - rewrite firstn_firstn. f_equal. lia.
  - apply length_firstn.
Qed.

Import Stages.

Lemma toArray_performing (calls : list E) (next : Gen E T) :
  toArray (performing calls next) = toArray next.
Proof. induction calls as [|c l IH]; simpl; done. Qed.

Lemma invocations_performing (calls : list E) (next : Gen E T) :
  invocations (performing calls next) = calls ++ invocations next.
Proof. induction calls as [|c l IH]; simpl; [done | by rewrite IH]. Qed.

(** X12.  [concat], [append] and [prepend] yield self with the other
    sequence or the value after or before it, and perform the
    invocations of both sides in that order. *)
Theorem concat_append_prepend (value : T) (self other : Gen E T) :
  toArray (concat self other) = toArray self ++ toArray other /\
  invocations (concat self other) = invocations self ++ invocations other /\
  toArray (append value self) = toArray self ++ [value] /\
  toArray (prepend value self) = value :: toArray self /\
  invocations (append value self) = invocations self /\
  invocations (prepend value self) = invocations self.
Proof.
  repeat split.
  - induction self as [|item rest IH|call rest IH]; simpl;
      [done | by rewrite IH | done].
  - induction self as [|item rest IH|call rest IH]; simpl;
      [done | done | by rewrite IH].
  - induction self as [|item rest IH|call rest IH]; simpl;
      [done | by rewrite IH | done].
  - induction self as [|item rest IH|call rest IH]; simpl;
      [done | done | by rewrite IH].
Qed.

(** X13.  [reverse()] yields the elements in reverse order and performs
    the invocations of its upstream unchanged; reversing twice gives the
    elements back, and reversing a concatenation is concatenating the
    reversed sequences the other way round. *)
Theorem reverse_reverses (self other : Gen E T) :
  toArray (reverse self) = rev (toArray self) /\
  invocations (reverse self) = invocations self /\
  toArray (reverse (reverse self)) = toArray self /\
  toArray (reverse (concat self other))
  = toArray (concat (reverse other) (reverse self)).
Proof.
  assert (Hto : forall g : Gen E T, toArray (reverse g) = rev (toArray g)).
  { intros g. unfold reverse. by rewrite toArray_performing, toArray_of_array. }
  split; [apply Hto |]. split; [| split].
  - unfold reverse.
    by rewrite invocations_performing, invocations_of_array, app_nil_r.
  - rewrite !Hto. apply rev_involutive.
  - rewrite Hto.
    assert (Hcat : forall a b : Gen E T,
               toArray (concat a b) = toArray a ++ toArray b).
    { intros a b. induction a as [|item rest IH|call rest IH]; simpl;
        [done | by rewrite IH | done]. }
    rewrite !Hcat, !Hto. apply rev_app_distr.
Qed.

Lemma first_agrees (predicate : option (T -> bool)) (self : Gen E T) :
  fst (Stages.first predicate self) = first_loop predicate (toArray self).
Proof.
  induction self as [|item rest IH|call rest IH]; simpl; [done | |].
  - destruct predicate as [p|]; [| done]. destruct (p item); [done | exact IH].
  - destruct (Stages.first predicate rest). exact IH.
Qed.

Lemma first_prefix (predicate : option (T -> bool)) (self : Gen E T) :
  snd (Stages.first predicate self) `prefix_of` invocations self.
Proof.
  induction self as [|item rest IH|call rest IH]; simpl.
  - done.
  - destruct predicate as [p|]; [| apply prefix_nil].
    destruct (p item); [apply prefix_nil | exact IH].
  - destruct (Stages.first predicate rest). simpl in *. by apply prefix_cons.
Qed.

(** X14.  [first] stops pulling at its result: it returns what it returns
    on the materialized sequence, the invocations performed upstream are
    an initial part of those of a full traversal, and over [select]
    on an array [first()] invokes the mapper on the first element only. *)
Theorem first_stops_at_result {S : Type} (predicate : option (T -> bool))
  (self : Gen E T) (mapper : T -> S) (item : T) (rest : list T) :
  fst (Stages.first predicate self) = first_loop predicate (toArray self) /\
  snd (Stages.first predicate self) `prefix_of` invocations self /\
  Stages.first None (select mapper (of_array (E := E) (item :: rest)))
  = (Some (mapper item), [inr item]) /\
  Stages.first None (prepend item self) = (Some item, []).
Proof.
  split; [apply first_agrees |]. split; [apply first_prefix |].
  split; reflexivity.
Qed.

(** X15.  [reverse()] materializes: before its first element is handed
    out, every invocation of the stages above it has been performed. *)
Theorem reverse_materializes (predicate : option (T -> bool))
  (self : Gen E T) :
  snd (Stages.first predicate (reverse self)) = invocations self /\
  fst (Stages.first predicate (reverse self))
  = first_loop predicate (rev (toArray self)).
Proof.
  split.
  - unfold reverse. generalize (rev (toArray self)). intros items.
    induction (invocations self) as [|call calls IH]; simpl.
    + pose proof (first_prefix predicate (of_array (E := E) items)) as Hp.
      rewrite invocations_of_array in Hp. by apply prefix_nil_inv in Hp.
    + destruct (Stages.first predicate (performing calls (of_array items))).
      simpl in *. by rewrite IH.
  - rewrite first_agrees. unfold reverse.
    by rewrite toArray_performing, toArray_of_array.
Qed.

End StageProperties.

(** *** Set-like operators and conversions *)

Section SetLikeExtras.
Import Enumerable.
Context {T K : Type} `{Countable K}.

Lemma filter_sublist (p : T -> bool) (l : list T) :
  List.filter p l `sublist_of` l.
Proof.
  induction l as [|x l IH]; simpl; [done |].
  destruct (p x); [by apply sublist_skip | by apply sublist_cons].
Qed.

Lemma first_seen_sublist (key : T -> K) (l : list T) :
  Spec.first_seen key l `sublist_of` l.
Proof.
  induction l as [|x l IH]; simpl; [done |].
  apply sublist_skip. etransitivity; [apply filter_sublist | exact IH].
Qed.

Lemma first_seen_is_first (key : T -> K) (l : list T) (x : T) :
  x ∈ Spec.first_seen key l -> Spec.first_with key (key x) l = Some x.
Proof.
  unfold Spec.first_with.
  induction l as [|y l IH]; simpl; intros Hin;
    [by apply not_elem_of_nil in Hin |].
  apply elem_of_cons in Hin as [-> | Hin].
  - by rewrite bool_decide_eq_true_2.
  - apply list_elem_of_In, filter_In in Hin as [Hin Hne].
    apply negb_true_iff, bool_decide_eq_false in Hne.
    rewrite bool_decide_eq_false_2 by congruence.
    apply IH. by apply list_elem_of_In.
Qed.

Lemma first_seen_idempotent (key : T -> K) (l : list T) :
  Spec.first_seen key (Spec.first_seen key l) = Spec.first_seen key l.
Proof.
  induction l as [|x l IH]; simpl; [done |].
  f_equal. rewrite <- first_seen_filter_ne, IH, filter_filter_and.
  apply List.filter_ext. intros y. apply andb_diag.
Qed.

Lemma distinctBy_first_seen (key : T -> K) (l : list T) :
  distinctBy key l = Spec.first_seen key l.
Proof.
  unfold distinctBy. rewrite seen_loop_first_seen. f_equal.
  apply filter_all. intros x.
  apply negb_true_iff, bool_decide_eq_false. set_solver.
Qed.

(** X16.  [distinctBy(keySelector)] keeps, in order, exactly the elements
    that are the first with their key: its result is a subsequence of the
    input with pairwise different keys, one for every key of the input. *)
Theorem distinctBy_keeps_first_occurrences (keySelector : T -> K)
  (self : list T) :
  let out := distinctBy keySelector self in
  out `sublist_of` self /\
  NoDup (keySelector <$> out) /\
  (forall k, k ∈ keySelector <$> out <-> k ∈ keySelector <$> self) /\
  (forall x, x ∈ out <->
             Spec.first_with keySelector (keySelector x) self = Some x) /\
  length out = Spec.distinct_keys keySelector self.
Proof.
  intros out. unfold out. rewrite distinctBy_first_seen.
  destruct (first_seen_keys keySelector self) as [Hnd Hin].
  split; [apply first_seen_sublist |]. split; [exact Hnd |].
  split; [exact Hin |]. split; [| apply first_seen_length].
  intros x. split; [apply first_seen_is_first |].
  intros Hfirst.
  assert (Hk : keySelector x ∈ keySelector <$> Spec.first_seen keySelector self).
  { apply Hin. destruct (decide (keySelector x ∈ keySelector <$> self));
      [done |]. apply first_with_None in n. congruence. }
  apply list_elem_of_fmap in Hk as (y & Hxy & Hy).
  apply first_seen_is_first in Hy as Hy'. rewrite <- Hxy, Hfirst in Hy'.
  by injection Hy' as ->.
Qed.

Variable same : T -> K.

Lemma union_unfold (self other : list T) (keySelector : option (T -> K)) :
  union same self other keySelector
  = Spec.first_seen (set_key same keySelector) (self ++ other).
Proof.
  pose proof (seen_loop_first_seen (set_key same keySelector)
                (self ++ other) ∅) as Hspec.
  rewrite seen_loop_app in Hspec. unfold union.
  destruct (seen_loop (set_key same keySelector) ∅ self) as [out1 seen1].
  destruct (seen_loop (set_key same keySelector) seen1 other) as [out2 seen2].
  simpl in Hspec. rewrite Hspec. f_equal. apply filter_all. intros x.
  apply negb_true_iff, bool_decide_eq_false. set_solver.
Qed.

(** X17.  [distinct] and [union] are idempotent and agree: applying
    [distinctBy] twice changes nothing, a union with an empty sequence
    or with the sequence itself is [distinct], and the result of a union
    is already distinct. *)
Theorem distinct_union_idempotent (keySelector : T -> K)
  (self other : list T) :
  distinctBy keySelector (distinctBy keySelector self)
  = distinctBy keySelector self /\
  union same self [] (Some keySelector) = distinctBy keySelector self /\
  union same self [] None = distinct same self /\
  union same self self None = distinct same self /\
  distinctBy keySelector (union same self other (Some keySelector))
  = union same self other (Some keySelector).
Proof.
  rewrite !union_unfold. unfold distinct, set_key.
  fold (distinctBy same self). rewrite !distinctBy_first_seen.
  rewrite app_nil_r. repeat split.
  - apply first_seen_idempotent.
  - rewrite first_seen_app.
    rewrite (filter_none _ self), app_nil_r; [done |].
    intros x Hx. apply negb_false_iff, bool_decide_eq_true.
    apply list_elem_of_fmap. eauto.
  - apply first_seen_idempotent.
Qed.

(** X18.  [union] yields one element per distinct key of the two
    sequences together, starting with the distinct elements of self. *)
Theorem union_size_and_prefix (self other : list T)
  (keySelector : option (T -> K)) :
  let key := set_key same keySelector in
  length (union same self other keySelector)
  = Spec.distinct_keys key (self ++ other) /\
  distinctBy key self `prefix_of` union same self other keySelector /\
  union same self other keySelector `sublist_of` self ++ other.
Proof.
  intros key. rewrite union_unfold. fold key. split; [| split].
  - apply first_seen_length.
  - rewrite distinctBy_first_seen, first_seen_app. by eexists.
  - apply first_seen_sublist.
Qed.


(** X20.  [toSet()] holds exactly the elements of the sequence, as many
    as [distinct()] yields, and is the same for the sequence and for its
    distinct elements. *)
Theorem toSet_holds_distinct_elements (self : list T) :
  (forall k, k ∈ toSet same self <-> exists x, x ∈ self /\ same x = k) /\
  size (toSet same self) = length (distinct same self) /\
  toSet same (distinct same self) = toSet same self /\
  (size (toSet same self) <= length self)%nat.
Proof.
  unfold toSet, distinct. fold (distinctBy same self).
  rewrite distinctBy_first_seen.
  destruct (first_seen_keys same self) as [Hnd Hin].
  assert (Hsize : size (list_to_set (same <$> self) : gset K)
                  = length (Spec.first_seen same self))
    by (symmetry; apply first_seen_length).
  split; [| split; [exact Hsize | split]].
  - intros k. rewrite elem_of_list_to_set, list_elem_of_fmap.
    split; intros (x & Hx1 & Hx2); exists x; done.
  - apply set_eq. intros k. rewrite !elem_of_list_to_set. apply Hin.
  - rewrite Hsize. apply sublist_length, first_seen_sublist.
Qed.

End SetLikeExtras.

Section ToMapProperties.
Import Enumerable Stages.
Context {T K V : Type} `{Countable K}.
Variable keySelector : T -> K.
Variable valueSelector : T -> V.
Variable show : K -> string.

Notation toMap_ := (toMap keySelector valueSelector show).

Lemma toMap_snoc (warn : bool) (items : list T) (item : T) :
  toMap_ warn (items ++ [item])
  = toMap_item keySelector valueSelector show warn (toMap_ warn items) item.
Proof. unfold toMap. by rewrite fold_left_app. Qed.

Lemma distinct_keys_snoc (items : list T) (item : T) :
  Spec.distinct_keys keySelector (items ++ [item])
  = (Spec.distinct_keys keySelector items
     + (if bool_decide (keySelector item ∈ keySelector <$> items)
        then 0 else 1))%nat.
Proof.
  rewrite <- !first_seen_length, first_seen_app, length_app. simpl.
  destruct (bool_decide (keySelector item ∈ keySelector <$> items));
    reflexivity.
Qed.

Lemma toMap_dom (warn : bool) (items : list T) :
  dom (fst (toMap_ warn items)) = list_to_set (keySelector <$> items).
Proof.
  induction items as [|item items IH] using rev_ind; [set_solver |].
  rewrite toMap_snoc. destruct (toMap_ warn items) as [map console].
  simpl in *. rewrite dom_insert_L, IH, fmap_app, list_to_set_app_L.
  set_solver.
Qed.

(** X21.  [toMap] keeps, for every key, the value of the last element
    with that key, has one entry per distinct key, and does not depend
    on the warning flag; with the flag set it writes one warning for
    every element whose key was already present, and none without. *)
Theorem toMap_last_write_wins (warnOnDuplicates : bool) (items : list T) :
  (forall k, fst (toMap_ warnOnDuplicates items) !! k
             = valueSelector <$> Spec.first_with keySelector k (rev items)) /\
  size (fst (toMap_ warnOnDuplicates items))
  = Spec.distinct_keys keySelector items /\
  fst (toMap_ true items) = fst (toMap_ false items) /\
  snd (toMap_ false items) = [] /\
  (length (snd (toMap_ true items)) + Spec.distinct_keys keySelector items
   = length items)%nat.
Proof.
  split; [| split; [| split; [| split]]].
  - induction items as [|item items IH] using rev_ind; intros k;
      [apply lookup_empty |].
    rewrite toMap_snoc, rev_app_distr. specialize (IH k).
    destruct (toMap_ warnOnDuplicates items) as [map console].
    unfold Spec.first_with in *. simpl in *.
    destruct (bool_decide_reflect (keySelector item = k)) as [<- | Hne].
    + by rewrite lookup_insert_eq.
    + by rewrite lookup_insert_ne.
  - rewrite <- size_dom, toMap_dom. reflexivity.
  - induction items as [|item items IH] using rev_ind; [reflexivity |].
    rewrite !toMap_snoc.
    destruct (toMap_ true items), (toMap_ false items). simpl in *.
    by rewrite IH.
  - induction items as [|item items IH] using rev_ind; [reflexivity |].
    rewrite toMap_snoc. destruct (toMap_ false items). simpl in *. exact IH.
  - induction items as [|item items IH] using rev_ind; [reflexivity |].
    rewrite toMap_snoc, distinct_keys_snoc, length_app.
    pose proof (toMap_dom true items) as Hdom.
    destruct (toMap_ true items) as [map console]. simpl in *.
    assert (Hsome : is_Some (map !! keySelector item)
                    <-> keySelector item ∈ keySelector <$> items).
    { rewrite <- elem_of_dom, Hdom. apply elem_of_list_to_set. }
    destruct (decide (keySelector item ∈ keySelector <$> items)) as [Hin|Hin].
    + rewrite (bool_decide_eq_true_2 (is_Some _)) by (by apply Hsome).
      rewrite (bool_decide_eq_true_2 (_ ∈ _)) by done.
      rewrite length_app. simpl. lia.
    + rewrite (bool_decide_eq_false_2 (is_Some _)) by (by rewrite Hsome).
      rewrite (bool_decide_eq_false_2 (_ ∈ _)) by done.
      simpl. lia.
Qed.

End ToMapProperties.

(** *** Memoization: what the cache never does *)

Section MemoizeExtras.
Import Enumerable.
Context {T S K : Type} `{Countable K}.
Variable stringify : T -> K.
Variable fn : T -> S.
Variable keySelector : option (T -> K).

Notation key := (memo_key stringify keySelector).

Lemma first_with_key (k : K) (l : list T) (x : T) :
  Spec.first_with key k l = Some x -> key x = k /\ x ∈ l.
Proof.
  unfold Spec.first_with. intros Hf. apply find_some in Hf as [Hin Hk].
  apply bool_decide_eq_true in Hk. split; [done | by apply list_elem_of_In].
Qed.

(** X22.  When elements with the same key have the same result, every
    traversal of the memoized sequence yields what [select(fn)] yields. *)
Theorem memoize_agrees_with_select (items : list T) (n : nat) :
  (forall x y, x ∈ items -> y ∈ items -> key x = key y -> fn x = fn y) ->
  fst (memoize_traversals stringify fn keySelector memo_init
         (replicate n items))
  = replicate n (fn <$> items).
Proof.
  intros Hfn.
  destruct (memoize_traversals_spec stringify fn keySelector
              (replicate n items) [] memo_init
              (memo_inv_init stringify fn keySelector)) as [_ Houts].
  simpl app in Houts.
  set (outs := fst _) in *. clearbody outs.
  assert (Hhist : forall x, x ∈ concat (replicate n items) -> x ∈ items).
  { intros x Hx. apply list_elem_of_In, in_concat in Hx as (l & Hl & Hx).
    apply list_elem_of_In, elem_of_replicate in Hl as [-> _].
    by apply list_elem_of_In. }
  apply list_eq_same_length with n.
  - apply length_replicate.
  - apply Forall2_length in Houts. by rewrite length_replicate in Houts.
  - intros i out out' Hi Hout Hout'.
    apply lookup_replicate in Hout' as [-> _].
    destruct (Forall2_lookup_r _ _ _ _ _ Houts Hout) as (its & Hits & Hrel).
    apply lookup_replicate in Hits as [-> _].
    apply list_eq_same_length with (length items).
    + apply length_fmap.
    + symmetry. by eapply Forall2_length.
    + intros j y y' Hj Hy Hy'.
      apply list_lookup_fmap_Some in Hy' as (x & -> & Hx).
      pose proof (Forall2_lookup_lr _ _ _ _ _ _ Hrel Hx Hy) as Hxy.
      simpl in Hxy.
      destruct (Spec.first_with key (key x) (concat (replicate n items)))
        as [x0|] eqn:Hf; [| discriminate].
      apply first_with_key in Hf as [Hk Hx0]. injection Hxy as ->.
      apply Hfn; [by apply Hhist | by eapply list_elem_of_lookup_2 | done].
Qed.

(** X23.  A traversal never overwrites a cache entry and never invokes
    [fn] for a key the cache holds: the cache and the list of invocations
    only grow, and over elements whose keys are all cached nothing is
    invoked. *)
Theorem memoize_first_write_wins (m : memo) (items : list T) :
  let m' := snd (memoize stringify fn keySelector m items) in
  cache m ⊆ cache m' /\
  invoked m `prefix_of` invoked m' /\
  ((forall x, x ∈ items -> is_Some (cache m !! key x)) ->
   m' = m /\
   Forall2 (fun x y => cache m !! key x = Some y) items
           (fst (memoize stringify fn keySelector m items))).
Proof.
  revert m. induction items as [|item rest IH]; intros m; simpl.
  - split; [done |]. split; [done |]. intros _. split; [done | constructor].
  - unfold memoize_item.
    destruct (cache m !! key item) as [cached|] eqn:Hc.
    + specialize (IH m).
      destruct (memoize stringify fn keySelector m rest) as [ys m2].
      simpl in *. destruct IH as (Hsub & Hpre & Hhit).
      split; [done |]. split; [done |]. intros Hall.
      destruct Hhit as [-> Hys]; [intros x Hx; apply Hall; by right |].
      split; [done |]. by constructor.
    + specialize (IH (mkMemo (<[key item := fn item]> (cache m))
                             (invoked m ++ [item]))).
      destruct (memoize stringify fn keySelector _ rest) as [ys m2].
      simpl in *. destruct IH as (Hsub & Hpre & _).
      split; [| split].
      * etransitivity; [| exact Hsub]. by apply insert_subseteq.
      * etransitivity; [| exact Hpre]. by apply prefix_app_r.
      * intros Hall. destruct (Hall item) as [v Hv]; [left |]. congruence.
Qed.

End MemoizeExtras.

Lemma memoize_agrees_with_select_witness :
  fst (Enumerable.memoize_traversals (fun n : Z => n) (fun n => n * 2) None
         Enumerable.memo_init (replicate 2 [1; 2; 3]))
  = replicate 2 ((fun n => n * 2) <$> [1; 2; 3]).
Proof.
  apply (memoize_agrees_with_select (fun n : Z => n) (fun n => n * 2) None
           [1; 2; 3] 2).
  intros x y _ _ Hxy. unfold Enumerable.memo_key in Hxy. congruence.
Defined.

Lemma memoize_first_write_wins_witness :
  let m := snd (Enumerable.memoize (fun n : Z => n) (fun n => n * n) None
                  Enumerable.memo_init [1; 2]) in
  snd (Enumerable.memoize (fun n : Z => n) (fun n => n * n) None m [2; 1; 2])
  = m.
Proof.
  intros m.
  apply (proj2 (proj2 (memoize_first_write_wins (fun n : Z => n)
                         (fun n => n * n) None m [2; 1; 2]))).
  intros x Hx.
  repeat (apply elem_of_cons in Hx as [-> | Hx];
          [eexists; vm_compute; reflexivity |]).
  by apply not_elem_of_nil in Hx.
Defined.

(** *** Asynchronous memoization: growth and progress *)

Section AsyncExtras.
Import Enumerable.
Context {T S K : Type} `{Countable K}.
Variable stringify : T -> K.
Variable fn : T -> S.
Variable keySelector : option (T -> K).

Notation key := (memo_key stringify keySelector).
Notation inv := (Invariant.async_inv (S := S) key).
Notation progress := (Progress.progress_inv key fn).

Lemma step_grows (ev : event) (st st' : async_memo) :
  inv st -> step stringify fn keySelector ev st = Some st' ->
  async_cache st ⊆ async_cache st' /\
  async_invoked st `prefix_of` async_invoked st' /\
  settled st ⊆ settled st' /\
  length (traversals st') = length (traversals st).
Proof.
  intros Hinv. destruct ev as [t | p | t]; simpl.
  - destruct (traversals st !! t) as [[ups aw rcv out]|] eqn:Ht;
      [| discriminate].
    destruct ups as [|item rest]; [discriminate |].
    destruct aw as [|]; [discriminate |].
    unfold memoizeAsync_item.
    destruct (async_cache st !! key item) as [p|] eqn:Hc; simpl;
      intros [= <-]; simpl; rewrite length_insert;
      (split; [| split; [| split]]); try done.
    + by apply insert_subseteq.
    + by apply prefix_app_r.
  - destruct (bool_decide (p < length (async_invoked st))%nat);
      [| discriminate].
    intros [= <-]. simpl. split; [done |]. split; [done |].
    split; [set_solver | done].
  - destruct (traversals st !! t) as [[ups aw rcv out]|] eqn:Ht;
      [| discriminate].
    destruct aw as [p|]; [| discriminate].
    destruct (async_invoked st !! p) as [arg|]; [| discriminate].
    destruct (bool_decide (p ∈ settled st)); [| discriminate].
    intros [= <-]. simpl. by rewrite length_insert.
Qed.

(** X24.  Under any interleaving the cache of [memoizeAsync] is never
    overwritten: along every schedule the cache, the list of invocations
    of [fn] and the set of resolved Promises only grow, and the number of
    traversals stays the same. *)
Theorem memoizeAsync_first_write_wins (inputs : list (list T))
  (before after : list event) (st st' : async_memo) :
  run stringify fn keySelector before (async_init inputs) = Some st ->
  run stringify fn keySelector after st = Some st' ->
  async_cache st ⊆ async_cache st' /\
  async_invoked st `prefix_of` async_invoked st' /\
  settled st ⊆ settled st' /\
  length (traversals st') = length inputs.
Proof.
  intros Hbefore Hafter.
  pose proof (run_inv stringify fn keySelector before _ _
                (async_inv_init stringify keySelector inputs) Hbefore) as Hinv.
  assert (Hlen : length (traversals st) = length inputs).
  { clear Hafter Hinv. revert Hbefore.
    assert (Hgen : forall sched s s',
               inv s -> run stringify fn keySelector sched s = Some s' ->
               length (traversals s') = length (traversals s)).
    { induction sched as [|ev later IH]; intros s s' Hs; simpl.
      - by intros [= <-].
      - destruct (step stringify fn keySelector ev s) as [s1|] eqn:Hstep;
          [| discriminate].
        intros Hrun. rewrite (IH s1 s'); [| by eapply step_inv | done].
        by apply (step_grows ev s s1). }
    intros Hrun.
    rewrite (Hgen before _ _ (async_inv_init stringify keySelector inputs) Hrun).
    unfold async_init. simpl. apply length_fmap. }
  rewrite <- Hlen. clear Hlen Hbefore.
  revert st Hinv Hafter.
  induction after as [|ev later IH]; intros st Hinv; simpl.
  - intros [= <-]. done.
  - destruct (step stringify fn keySelector ev st) as [st1|] eqn:Hstep;
      [| discriminate].
    intros Hrun.
    destruct (step_grows ev st st1 Hinv Hstep) as (Hc & Hi & Hs & Hl).
    destruct (IH st1) as (Hc' & Hi' & Hs' & Hl');
      [by eapply step_inv | done |].
    split; [by etransitivity |]. split; [by etransitivity |].
    split; [by etransitivity | congruence].
Qed.

Lemma progress_init (inputs : list (list T)) :
  progress inputs (async_init (S := S) inputs).
Proof.
  intros t tr items Htr Hitems. unfold async_init in Htr. simpl in Htr.
  apply list_lookup_fmap_Some in Htr as (items' & -> & Hitems').
  assert (items' = items) as -> by congruence.
  exists [], []. simpl. repeat split; constructor.
Qed.

Lemma traversal_inv_mono (invoked invoked' items : list T) (tr : traversal) :
  invoked `prefix_of` invoked' ->
  Progress.traversal_inv key fn invoked items tr ->
  Progress.traversal_inv key fn invoked' items tr.
Proof.
  intros Hpre (consumed & finished & Hitems & Hkeys & Hvalues & Hlast).
  exists consumed, finished. repeat split; try done.
  eapply Forall2_impl; [exact Hvalues |].
  intros kp y (x & Hx & ->). exists x. split; [| done].
  by eapply prefix_lookup_Some.
Qed.

Lemma step_progress (inputs : list (list T)) (ev : event)
  (st st' : async_memo) :
  inv st -> progress inputs st ->
  step stringify fn keySelector ev st = Some st' -> progress inputs st'.
Proof.
  intros Hinv Hprog Hstep.
  destruct (step_grows ev st st' Hinv Hstep) as (_ & Hpre & _ & _).
  revert Hstep. destruct ev as [t | p | t]; simpl.
  - destruct (traversals st !! t) as [[ups aw rcv out]|] eqn:Ht;
      [| discriminate].
    destruct ups as [|item rest]; [discriminate |].
    destruct aw as [|]; [discriminate |].
    intros Hstep.
    assert (exists p invoked' cache',
               st' = mkAsync cache' invoked' (settled st)
                       (<[t := mkTraversal rest (Some p)
                                 (rcv ++ [(key item, p)]) out]>
                          (traversals st)))
      as (p & invoked' & cache' & ->).
    { revert Hstep. unfold memoizeAsync_item.
      destruct (async_cache st !! key item); simpl; intros [= <-]; eauto. }
    simpl in *. intros t' tr items Htr Hitems.
    apply list_lookup_insert_Some in Htr as [(<- & <- & _) | [Hne Htr]].
    + destruct (Hprog t _ items Ht Hitems)
        as (consumed & finished & Hits & Hkeys & Hvalues & Hlast).
      simpl in *. subst finished.
      exists (consumed ++ [item]), rcv. simpl.
      split; [by rewrite <- app_assoc |].
      split; [by rewrite !fmap_app, Hkeys |].
      split; [| by exists (key item)].
      eapply Forall2_impl; [exact Hvalues |].
      intros kp y (x & Hx & ->). exists x. split; [| done].
      by eapply prefix_lookup_Some.
    + eapply traversal_inv_mono; [exact Hpre |]. by eapply Hprog.
  - destruct (bool_decide (p < length (async_invoked st))%nat);
      [| discriminate].
    intros [= <-]. exact Hprog.
  - destruct (traversals st !! t) as [[ups aw rcv out]|] eqn:Ht;
      [| discriminate].
    destruct aw as [p|]; [| discriminate].
    destruct (async_invoked st !! p) as [arg|] eqn:Harg; [| discriminate].
    destruct (bool_decide (p ∈ settled st)); [| discriminate].
    intros [= <-]. simpl in *. intros t' tr items Htr Hitems.
    apply list_lookup_insert_Some in Htr as [(<- & <- & _) | [Hne Htr]];
      [| by eapply Hprog].
    destruct (Hprog t _ items Ht Hitems)
      as (consumed & finished & Hits & Hkeys & Hvalues & k & Hlast).
    simpl in *. exists consumed, rcv. simpl.
    split; [done |]. split; [done |]. split; [| done].
    rewrite Hlast. apply Forall2_app; [exact Hvalues |].
    constructor; [| constructor]. exists arg. done.
Qed.

Lemma run_progress (inputs : list (list T)) (schedule : list event) :
  forall st st',
    inv st -> progress inputs st ->
    run stringify fn keySelector schedule st = Some st' ->
    progress inputs st'.
Proof.
  induction schedule as [|ev later IH]; intros st st' Hinv Hprog; simpl.
  - by intros [= <-].
  - destruct (step stringify fn keySelector ev st) as [st1|] eqn:Hstep;
      [| discriminate].
    apply IH; [by eapply step_inv | by eapply step_progress].
Qed.

(** X25.  Under any interleaving, every traversal of an asynchronously
    memoized sequence hands out its values in the order of its input: the
    value for each element is [fn] of the one element [fn] was invoked on
    with that element's key, and a traversal that has consumed its input
    and awaits nothing has handed out one value per element. *)
Theorem memoizeAsync_delivers_in_order (inputs : list (list T))
  (schedule : list event) (st : async_memo) (t : nat) (tr : traversal)
  (items : list T) :
  run stringify fn keySelector schedule (async_init inputs) = Some st ->
  traversals st !! t = Some tr ->
  inputs !! t = Some items ->
  Forall2 (fun x y => exists x0, x0 ∈ async_invoked st /\
                                 key x0 = key x /\ y = fn x0)
          (firstn (length (delivered tr)) items) (delivered tr) /\
  (upstream tr = [] -> awaiting tr = None ->
   length (delivered tr) = length items).
Proof.
  intros Hrun Htr Hitems.
  pose proof (async_inv_init stringify keySelector (S := S) inputs) as Hinit.
  pose proof (run_inv stringify fn keySelector schedule _ _ Hinit Hrun)
    as (Hcache & _ & Hreceived & _).
  destruct (run_progress inputs schedule _ _ Hinit (progress_init inputs)
              Hrun t tr items Htr Hitems)
    as (consumed & finished & Hits & Hkeys & Hvalues & Hlast).
  assert (Hin : tr ∈ traversals st) by (by eapply list_elem_of_lookup_2).
  assert (Hpre : finished `prefix_of` received tr).
  { destruct (awaiting tr); [destruct Hlast as [k ->]; by eexists |].
    by rewrite Hlast. }
  assert (Hlenf : length finished = length (delivered tr))
    by (by eapply Forall2_length).
  assert (Hlenr : length (received tr) = length consumed).
  { rewrite <- (length_fmap fst (received tr)), Hkeys. apply length_fmap. }
  assert (Hle : (length (delivered tr) <= length consumed)%nat).
  { rewrite <- Hlenf, <- Hlenr. by apply prefix_length. }
  split.
  - apply Forall2_same_length_lookup. split.
    + rewrite length_firstn, Hits, length_app. lia.
    + intros j x y Hx Hy.
      apply lookup_take_Some in Hx as [Hx Hj].
      assert (Hxc : consumed !! j = Some x).
      { rewrite Hits, lookup_app_l in Hx by lia. exact Hx. }
      destruct (lookup_lt_is_Some_2 finished j) as [[k p] Hkp]; [lia |].
      destruct (Forall2_lookup_lr _ _ _ _ _ _ Hvalues Hkp Hy)
        as (x0 & Hx0 & ->).
      simpl in Hx0.
      pose proof (prefix_lookup_Some _ _ _ _ Hkp Hpre) as Hrcv.
      assert (Hk : k = key x).
      { assert (Hfst : (received tr).*1 !! j = Some k)
          by (by rewrite list_lookup_fmap, Hrcv).
        rewrite Hkeys, list_lookup_fmap, Hxc in Hfst. by injection Hfst. }
      pose proof (Hreceived tr k p Hin (list_elem_of_lookup_2 _ _ _ Hrcv))
        as Hc.
      destruct (Hcache k p Hc) as (item & Hitem & Hkey).
      assert (item = x0) as -> by congruence.
      exists x0. split; [by eapply list_elem_of_lookup_2 |].
      split; [congruence | done].
  - intros Hup Hnone. rewrite Hnone in Hlast.
    rewrite Hup, app_nil_r in Hits. subst. congruence.
Qed.

End AsyncExtras.

Lemma memoizeAsync_first_write_wins_witness :
  let before := [Enumerable.Pull 0] in
  let after := [Enumerable.Pull 1; Enumerable.Settle 0] in
  let init := Enumerable.async_init (S := Z) [[7]; [7; 8]] in
  let st := default init
              (Enumerable.run (fun n : Z => n) (fun n => n * n) None before init) in
  let st' := default init
               (Enumerable.run (fun n : Z => n) (fun n => n * n) None after st) in
  Enumerable.async_cache st ⊆ Enumerable.async_cache st'.
Proof.
  intros before after init st st'.
  apply (memoizeAsync_first_write_wins (fun n : Z => n) (fun n => n * n) None
           [[7]; [7; 8]] before after st st'); vm_compute; reflexivity.
Defined.

Lemma memoizeAsync_delivers_in_order_witness :
  let schedule := [Enumerable.Pull 0; Enumerable.Pull 1; Enumerable.Settle 0;
                   Enumerable.Resume 1; Enumerable.Resume 0] in
  let init := Enumerable.async_init (S := Z) [[7]; [7]] in
  let st := default init
              (Enumerable.run (fun n : Z => n) (fun n => n * n) None
                 schedule init) in
  let tr := default (Enumerable.mkTraversal [] None [] [])
              (Enumerable.traversals st !! 1%nat) in
  length (Enumerable.delivered tr) = 1%nat.
Proof.
  intros schedule init st tr.
  apply (proj2 (memoizeAsync_delivers_in_order (fun n : Z => n)
                  (fun n => n * n) None [[7]; [7]] schedule st 1 tr [7]
                  ltac:(vm_compute; reflexivity)
                  ltac:(vm_compute; reflexivity)
                  ltac:(reflexivity)));
    vm_compute; reflexivity.
Defined.

(** *** Ordering: termination, and what sorting leaves unchanged *)

Section OrderingExtras.
Import Enumerable.
Context {T K : Type}.
Variable selector : T -> K.

Lemma orderBy_rec_returns (C : Compare K) (fuel : nat) :
  forall arr : list T,
    (length arr < fuel)%nat ->
    exists out, orderBy_rec (H := C) selector fuel arr = Some out /\
                (forall x, x ∈ out -> x ∈ arr) /\
                ((length arr <= 1)%nat -> out = arr).
Proof.
  induction fuel as [|fuel IH]; intros arr Hlen; [lia |].
  simpl. destruct (Nat.leb_spec (length arr) 1) as [Hle | Hgt].
  { exists arr. auto. }
  destruct (last arr) as [final|] eqn:Hlast.
  2: { apply last_None in Hlast. subst arr. simpl in Hgt. lia. }
  apply last_Some_elem_of in Hlast as Hfinal.
  destruct (IH (List.filter (fun x => lt (selector x) (selector final)) arr))
    as (before & -> & Hbefore & _).
  { pose proof (filter_length_lt
                  (fun x => lt (selector x) (selector final)) arr final
                  Hfinal (lt_irrefl _)). lia. }
  destruct (IH (List.filter (fun x => gt (selector x) (selector final)) arr))
    as (after & -> & Hafter & _).
  { pose proof (filter_length_lt
                  (fun x => gt (selector x) (selector final)) arr final
                  Hfinal (gt_irrefl _)). lia. }
  eexists. split; [reflexivity |]. split; [| lia].
  intros x Hx. rewrite !elem_of_app in Hx.
  destruct Hx as [Hx | [Hx | Hx]].
  - apply Hbefore, list_elem_of_In, filter_In in Hx.
    apply list_elem_of_In, Hx.
  - apply list_elem_of_In, filter_In in Hx. apply list_elem_of_In, Hx.
  - apply Hafter, list_elem_of_In, filter_In in Hx.
    apply list_elem_of_In, Hx.
Qed.

(** X26.  [orderBy] and [orderByDescending] return on every input,
    whatever the keys: the pivot is in neither outer bucket, so the
    recursion is at most as deep as the input is long.  The result holds
    only elements of the input, and an input of at most one element
    comes back as it is. *)
Theorem orderBy_returns `{C : Compare K} (arr : list T) :
  (exists out, orderBy selector arr = Some out /\
               (forall x, x ∈ out -> x ∈ arr) /\
               ((length arr <= 1)%nat -> out = arr)) /\
  (exists out, orderByDescending selector arr = Some out /\
               (forall x, x ∈ out -> x ∈ arr) /\
               ((length arr <= 1)%nat -> out = arr)).
Proof.
  split.
  - apply orderBy_rec_returns. lia.
  - unfold orderByDescending. rewrite orderByDescending_rec_flipped.
    apply orderBy_rec_returns. lia.
Qed.

Section Fixpoints.
Context (C : Compare K) (ok : K -> Prop).
Hypothesis Htot : Spec.totally_ordered (H := C) ok.

Notation sorted_by_key :=
  (StronglySorted (fun x y => Spec.non_decreasing (H := C)
                                (selector x) (selector y))).
Notation with_key k := (List.filter (fun x => seq (selector x) k)).

Lemma non_decreasing_antisym (a b : K) :
  ok a -> ok b ->
  Spec.non_decreasing (H := C) a b -> Spec.non_decreasing (H := C) b a ->
  a = b.
Proof.
  unfold Spec.non_decreasing. intros Ha Hb Hab Hba.
  destruct (trichotomy C ok Htot a b Ha Hb) as [Ht | [Ht | Ht]];
    injection Ht as Hlt Hseq Hgt.
  - rewrite (Spec.gt_lt ok Htot a b Ha Hb) in Hgt.
    rewrite Hgt in Hba. simpl in Hba.
    apply (Spec.seq_eq ok Htot b a Hb Ha) in Hba. done.
  - by apply (Spec.seq_eq ok Htot a b Ha Hb).
  - rewrite Hlt, Hseq in Hab. discriminate.
Qed.

(** A sorted, order-preserving rearrangement is unique. *)
Lemma sorted_stable_unique (l1 : list T) :
  forall l2 : list T,
    l1 ≡ₚ l2 ->
    (forall x, x ∈ l1 -> ok (selector x)) ->
    sorted_by_key l1 -> sorted_by_key l2 ->
    (forall k, ok k -> with_key k l1 = with_key k l2) ->
    l1 = l2.
Proof.
  induction l1 as [|a r1 IH]; intros l2 Hperm Hok Hs1 Hs2 Hstable.
  - by apply Permutation_nil in Hperm.
  - destruct l2 as [|b r2]; [by apply Permutation_sym, Permutation_nil in Hperm |].
    inversion Hs1 as [|? ? Hs1' Hall1]; subst.
    inversion Hs2 as [|? ? Hs2' Hall2]; subst.
    assert (Hoka : ok (selector a)) by (apply Hok; left).
    assert (Hb1 : b ∈ a :: r1) by (rewrite Hperm; left).
    assert (Ha2 : a ∈ b :: r2) by (rewrite <- Hperm; left).
    assert (Hokb : ok (selector b)) by (by apply Hok).
    assert (Hkey : selector a = selector b).
    { apply elem_of_cons in Hb1 as [-> | Hb1]; [done |].
      apply elem_of_cons in Ha2 as [-> | Ha2]; [done |].
      apply non_decreasing_antisym; [done | done | |].
      - rewrite List.Forall_forall in Hall1.
        by apply Hall1, list_elem_of_In.
      - rewrite List.Forall_forall in Hall2.
        by apply Hall2, list_elem_of_In. }
    assert (Hab : a = b).
    { pose proof (Hstable (selector a) Hoka) as Hk. simpl in Hk.
      rewrite <- Hkey, (seq_refl C ok Htot _ Hoka) in Hk. by injection Hk. }
    subst b. f_equal. apply IH.
    + by apply Permutation_cons_inv in Hperm.
    + intros x Hx. apply Hok. by right.
    + done.
    + done.
    + intros k Hk. specialize (Hstable k Hk). simpl in Hstable.
      destruct (seq (selector a) k); [by injection Hstable | done].
Qed.

Lemma orderBy_sorted_unchanged (arr : list T) :
  (forall x, x ∈ arr -> ok (selector x)) ->
  sorted_by_key arr ->
  orderBy (H := C) selector arr = Some arr.
Proof.
  intros Hok Hsorted.
  destruct (orderBy_rec_spec selector C ok Htot (Datatypes.S (length arr)) arr)
    as (out & Hout & Hperm & Hs & Hstable); [lia | done |].
  unfold orderBy. rewrite Hout. f_equal. symmetry.
  apply sorted_stable_unique; try done.
  intros k Hk. symmetry. by apply Hstable.
Qed.

Lemma orderBy_idempotent (arr out : list T) :
  (forall x, x ∈ arr -> ok (selector x)) ->
  orderBy (H := C) selector arr = Some out ->
  orderBy (H := C) selector out = Some out.
Proof.
  intros Hok Hout.
  destruct (orderBy_rec_spec selector C ok Htot (Datatypes.S (length arr)) arr)
    as (out' & Hout' & Hperm & Hs & Hstable); [lia | done |].
  unfold orderBy in Hout. rewrite Hout' in Hout. injection Hout as ->.
  apply orderBy_sorted_unchanged; [| done].
  intros x Hx. apply Hok. by rewrite Hperm.
Qed.

End Fixpoints.

Lemma filter_Permutation {A : Type} (p : A -> bool) (l l' : list A) :
  l ≡ₚ l' -> List.filter p l ≡ₚ List.filter p l'.
Proof.
  induction 1 as [| x l l' _ IH | x y l | l l' l'' _ IH1 _ IH2]; simpl.
  - done.
  - destruct (p x); [by constructor | done].
  - destruct (p x), (p y); try done. apply perm_swap.
  - by etransitivity.
Qed.

Lemma StronglySorted_rev {A : Type} (R : A -> A -> Prop) (l : list A) :
  StronglySorted R l -> StronglySorted (fun x y => R y x) (rev l).
Proof.
  induction 1 as [|a l Hs IH Hall]; simpl; [constructor |].
  apply StronglySorted_app_intro; [done | repeat constructor |].
  intros x y Hx Hy. apply list_elem_of_singleton in Hy as ->.
  rewrite List.Forall_forall in Hall.
  apply Hall, in_rev. by apply list_elem_of_In.
Qed.

Lemma StronglySorted_weaken {A : Type} (R R' : A -> A -> Prop) (l : list A) :
  (forall x y, x ∈ l -> y ∈ l -> R x y -> R' x y) ->
  StronglySorted R l -> StronglySorted R' l.
Proof.
  intros Himpl. induction 1 as [|a l Hs IH Hall]; constructor.
  - apply IH. intros x y Hx Hy. apply Himpl; by right.
  - rewrite List.Forall_forall in *. intros y Hy.
    apply Himpl; [by left | right; by apply list_elem_of_In | by apply Hall].
Qed.

Section DistinctKeys.
Context (C : Compare K) (ok : K -> Prop).
Hypothesis Htot : Spec.totally_ordered (H := C) ok.

Notation with_key k := (List.filter (fun x => seq (selector x) k)).

Lemma with_key_at_most_one (k : K) (l : list T) :
  NoDup (selector <$> l) ->
  (forall x, x ∈ l -> ok (selector x)) -> ok k ->
  with_key k l = [] \/ exists x, with_key k l = [x].
Proof.
  intros Hnd Hok Hk. induction l as [|a r IH]; simpl; [by left |].
  apply NoDup_cons in Hnd as [Hnotin Hnd].
  assert (Hoka : ok (selector a)) by (apply Hok; left).
  destruct (seq (selector a) k) eqn:Hseq.
  - right. exists a. f_equal. apply filter_none. intros x Hx.
    destruct (seq (selector x) k) eqn:Hxk; [| done]. exfalso.
    apply Hnotin.
    apply (Spec.seq_eq ok Htot _ _ Hoka Hk) in Hseq.
    apply (Spec.seq_eq ok Htot _ _ (Hok x (list_elem_of_further _ _ _ Hx)) Hk)
      in Hxk.
    rewrite Hseq, <- Hxk. apply list_elem_of_fmap. eauto.
  - apply IH; [done |]. intros x Hx. apply Hok. by right.
Qed.

Lemma with_key_Permutation (k : K) (l l' : list T) :
  NoDup (selector <$> l) ->
  (forall x, x ∈ l -> ok (selector x)) -> ok k ->
  l ≡ₚ l' -> with_key k l = with_key k l'.
Proof.
  intros Hnd Hok Hk Hperm.
  pose proof (filter_Permutation (fun x => seq (selector x) k) l l' Hperm)
    as Hf.
  destruct (with_key_at_most_one k l Hnd Hok Hk) as [Hnil | [x Hx]].
  - rewrite Hnil in *. symmetry. by apply Permutation_nil.
  - rewrite Hx in *. by apply Permutation_singleton_l in Hf.
Qed.

Lemma orderByDescending_is_rev (arr out : list T) :
  (forall x, x ∈ arr -> ok (selector x)) ->
  NoDup (selector <$> arr) ->
  orderBy (H := C) selector arr = Some out ->
  orderByDescending (H := C) selector arr = Some (rev out).
Proof.
  intros Hok Hnd Hout.
  pose proof (flipped_totally_ordered C ok Htot) as Hflip.
  destruct (orderBy_rec_spec selector C ok Htot (Datatypes.S (length arr)) arr)
    as (out' & Hout' & Hperm & Hs & _); [lia | done |].
  unfold orderBy in Hout. rewrite Hout' in Hout. injection Hout as ->.
  destruct (orderBy_rec_spec selector (Spec.flipped (H := C)) ok Hflip
              (Datatypes.S (length arr)) arr)
    as (outd & Houtd & Hpermd & Hsd & _); [lia | done |].
  unfold orderByDescending. rewrite orderByDescending_rec_flipped, Houtd.
  f_equal.
  assert (Hokd : forall x, x ∈ outd -> ok (selector x))
    by (intros x Hx; apply Hok; by rewrite Hpermd).
  assert (Hpd : outd ≡ₚ rev out)
    by (rewrite <- Hpermd, Hperm; apply Permutation_rev).
  apply (sorted_stable_unique (Spec.flipped (H := C)) ok Hflip);
    try done.
  - apply StronglySorted_rev in Hs.
    eapply StronglySorted_weaken; [| exact Hs].
    intros x y Hx Hy. unfold Spec.non_decreasing. simpl.
    assert (Hox : ok (selector x)).
    { apply Hok. rewrite Hperm. apply list_elem_of_In, in_rev.
      by apply list_elem_of_In. }
    assert (Hoy : ok (selector y)).
    { apply Hok. rewrite Hperm. apply list_elem_of_In, in_rev.
      by apply list_elem_of_In. }
    rewrite (Spec.gt_lt ok Htot _ _ Hox Hoy).
    intros Hyx. apply orb_true_iff in Hyx as [-> | Hseq]; [done |].
    apply (Spec.seq_eq ok Htot _ _ Hoy Hox) in Hseq.
    rewrite Hseq, (seq_refl C ok Htot) by done. apply orb_true_r.
  - intros k Hk. apply with_key_Permutation; try done.
    by rewrite <- Hpermd.
Qed.

End DistinctKeys.

(** X28.  When the keys are totally ordered and pairwise different,
    [orderByDescending] yields the result of [orderBy] in reverse. *)
Theorem orderByDescending_reverses_orderBy `{C : Compare K} (ok : K -> Prop)
  (arr out : list T) :
  Spec.totally_ordered ok ->
  (forall x, x ∈ arr -> ok (selector x)) ->
  NoDup (selector <$> arr) ->
  orderBy selector arr = Some out ->
  orderByDescending selector arr = Some (rev out).
Proof. intros Htot. by apply orderByDescending_is_rev. Qed.

(** X27.  Under a total order on the keys, sorting is idempotent and
    leaves a sorted sequence as it is; a sequence whose elements all have
    the same key comes back unchanged from [orderBy] and from
    [orderByDescending]. *)
Theorem orderBy_fixpoints `{C : Compare K} (ok : K -> Prop)
  (arr : list T) :
  Spec.totally_ordered ok ->
  (forall x, x ∈ arr -> ok (selector x)) ->
  (StronglySorted (fun x y => Spec.non_decreasing (selector x) (selector y))
                  arr ->
   orderBy selector arr = Some arr) /\
  (forall out, orderBy selector arr = Some out ->
               orderBy selector out = Some out) /\
  (forall out, orderByDescending selector arr = Some out ->
               orderByDescending selector out = Some out) /\
  ((forall x y, x ∈ arr -> y ∈ arr -> selector x = selector y) ->
   orderBy selector arr = Some arr /\
   orderByDescending selector arr = Some arr).
Proof.
  intros Htot Hok.
  pose proof (flipped_totally_ordered C ok Htot) as Hflip.
  assert (Hdesc : forall l, orderByDescending selector l
                            = orderBy (H := Spec.flipped (H := C)) selector l).
  { intros l. apply orderByDescending_rec_flipped. }
  split; [by apply (orderBy_sorted_unchanged C ok Htot) |].
  split; [intros out; by apply (orderBy_idempotent C ok Htot) |].
  split.
  - intros out. rewrite !Hdesc.
    by apply (orderBy_idempotent (Spec.flipped (H := C)) ok Hflip).
  - intros Hsame. split.
    + apply (orderBy_sorted_unchanged C ok Htot); [done |].
      apply StronglySorted_all_related. intros x y Hx Hy.
      unfold Spec.non_decreasing. rewrite (Hsame x y Hx Hy).
      rewrite (seq_refl C ok Htot) by (by apply Hok). apply orb_true_r.
    + rewrite Hdesc.
      apply (orderBy_sorted_unchanged (Spec.flipped (H := C)) ok Hflip);
        [done |].
      apply StronglySorted_all_related. intros x y Hx Hy.
      unfold Spec.non_decreasing. rewrite (Hsame x y Hx Hy). simpl.
      rewrite (seq_refl C ok Htot) by (by apply Hok). apply orb_true_r.
Qed.

End OrderingExtras.

Lemma orderByDescending_reverses_orderBy_witness :
  Enumerable.orderByDescending (fun x : Z => x) [3; 1; 4; 2]
  = Some (rev [1; 2; 3; 4]).
Proof.
  apply (orderByDescending_reverses_orderBy (fun x : Z => x) (fun _ => True)
           [3; 1; 4; 2] [1; 2; 3; 4] Z_totally_ordered (fun _ _ => I)).
  - apply (bool_decide_unpack (NoDup _)). vm_compute. exact I.
  - reflexivity.
Defined.

Lemma orderBy_fixpoints_witness :
  Enumerable.orderBy (fun x : Z => x) [1; 2; 2; 5] = Some [1; 2; 2; 5].
Proof.
  apply (proj1 (orderBy_fixpoints (fun x : Z => x) (fun _ => True)
                  [1; 2; 2; 5] Z_totally_ordered (fun _ _ => I))).
  repeat constructor.
Defined.

(** *** How the terminals agree *)

Section Agreement.
Import Enumerable.
Context {T : Type} `{C : Compare T}.

(** X30.  The terminals agree with each other: [any(p)] holds exactly
    when [first(p)] finds an element and when [count(p)] is positive;
    [all(p)] holds exactly when [count(p)] is [count()]. *)
Theorem terminals_agree (p : T -> bool) (items : list T) :
  (any_loop (Some p) items = true <-> is_Some (first_loop (Some p) items)) /\
  (any_loop (Some p) items = true <-> 0 < count_loop (Some p) items) /\
  (all_loop p items = true
   <-> count_loop (Some p) items = count_loop None items).
Proof.
  assert (Hcount : count_loop (Some p) items
                   = Z.of_nat (length (List.filter p items)))
    by (etransitivity; [exact (count_loop_acc (Some p) items 0) | simpl; lia]).
  assert (Hall : count_loop None items = Z.of_nat (length items))
    by (etransitivity; [exact (count_loop_acc None items 0) | simpl; lia]).
  rewrite Hcount, Hall. clear Hcount Hall. split; [| split].
  - induction items as [|item rest IH]; simpl.
    + split; [discriminate | by intros [? ?]].
    + destruct (p item); [split; [intros _; by eexists | done] | exact IH].
  - induction items as [|item rest IH]; simpl; [split; [discriminate | lia] |].
    destruct (p item); simpl; [split; [lia | done] | exact IH].
  - induction items as [|item rest IH]; simpl; [done |].
    pose proof (filter_length_le p rest).
    destruct (p item); simpl; [rewrite IH; lia | split; [discriminate | lia]].
Qed.

End Agreement.

Lemma take_edges_and_composition_witness :
  Enumerable.toArray
    (Enumerable.take 0 (Enumerable.of_array (E := Empty_set) [1; 2; 3])) = [] /\
  Enumerable.toArray
    (Enumerable.take 5 (Enumerable.of_array (E := Empty_set) [1; 2; 3]))
  = [1; 2; 3].
Proof.
  split.
  - apply (proj1 (take_edges_and_composition 0 0
                    (Enumerable.of_array (E := Empty_set) [1; 2; 3]))).
    lia.
  - apply (proj1 (proj2 (take_edges_and_composition 5 0
                           (Enumerable.of_array (E := Empty_set) [1; 2; 3])))).
    simpl. lia.
Defined.

Lemma orderBy_returns_witness :
  exists out,
    Enumerable.orderBy (fun x : number => x) [Num 2; NaN; Num 1] = Some out /\
    (forall x, x ∈ out -> x ∈ [Num 2; NaN; Num 1]) /\
    ((length [Num 2; NaN; Num 1] <= 1)%nat -> out = [Num 2; NaN; Num 1]).
Proof.
  apply (proj1 (orderBy_returns (fun x : number => x) [Num 2; NaN; Num 1])).
Defined.
